(** * Synthetic graph datasets: readers, collation and the BA-LRP generators

    A shallow embedding of [dig/xgraph/dataset/syn_dataset.py].

    Conventions of the embedding.
    - A [torch.long] tensor entry (a node index) is a [Z]; every index the
      program builds is below the size of a small graph, so the 64-bit
      wrap-around never comes into play.
    - A floating point value is an exact rational, or [None] when the
      operation that produced it leaves the finite numbers (division by
      zero gives [inf] or [nan]); rounding is not part of the model.
    - The pseudo random generator is a tape of draws: each call of
      [Categorical.sample] consumes the next entry, which must lie in the
      support of the distribution.  A tape that runs out, or that holds a
      value the distribution cannot produce, describes no run. *)

From Stdlib Require Import String Ascii.
From Stdlib Require Import List ZArith QArith Lia Bool Sorted.
Import ListNotations.
Open Scope Z_scope.

(** ** Tensors and graph records *)

(** The label tensors the module builds: a one-dimensional integer tensor
    (the result of [np.where]) or a two-dimensional float tensor. *)
Inductive tensor : Type :=
| LongVec (v : list Z)
| FloatMat (m : list (list Q)).

(** [torch_geometric.data.Data] with the attributes this module sets:
    [edge_index] is the 2 x E tensor, kept as its two rows. *)
Record Data : Type := mkData {
  x : list (list Q);
  edge_index : list Z * list Z;
  y : tensor;
  train_mask : option (list bool);
  val_mask : option (list bool);
  test_mask : option (list bool)
}.

Definition set_x (data : Data) (v : list (list Q)) : Data :=
  mkData v (edge_index data) (y data)
         (train_mask data) (val_mask data) (test_mask data).

Definition set_edge_index (data : Data) (e : list Z * list Z) : Data :=
  mkData (x data) e (y data)
         (train_mask data) (val_mask data) (test_mask data).

(** [torch.cat([a, b], dim=1)] on 2 x E tensors. *)
Definition cat_dim1 (a b : list Z * list Z) : list Z * list Z :=
  (fst a ++ fst b, snd a ++ snd b).

(** The columns of a 2 x E tensor: the directed edges (source, target). *)
Definition columns (e : list Z * list Z) : list (Z * Z) :=
  combine (fst e) (snd e).

(** Python's [range(lo, hi)]. *)
Definition range (lo hi : Z) : list Z :=
  map (fun k => lo + Z.of_nat k) (seq 0 (Z.to_nat (hi - lo))).

(** ** Floats *)

Definition float : Type := option Q.

Definition fin (q : Q) : float := Some q.

Definition fadd (a b : float) : float :=
  match a, b with
  | Some p, Some q => Some (p + q)%Q
  | _, _ => None
  end.

Definition fdiv (a b : float) : float :=
  match a, b with
  | Some p, Some q => if Qeq_bool q 0 then None else Some (p / q)%Q
  | _, _ => None
  end.

(** [t.sum()] of a one-dimensional float tensor. *)
Definition fsum (t : list float) : float := fold_left fadd t (fin 0).

(** [(row == node_idx).float().sum()]: the number of entries of [row]
    equal to [node_idx], as a float. *)
Definition count_eq (row : list Z) (node_idx : Z) : nat :=
  count_occ Z.eq_dec row node_idx.

Definition degree (row : list Z) (node_idx : Z) : float :=
  fin (inject_Z (Z.of_nat (count_eq row node_idx))).

(** ** Random runs *)

Definition tape : Type := list Z.

Inductive run (A : Type) : Type :=
| Ret (a : A) (rest : tape)   (* the call returns, the tape goes on *)
| Stuck                       (* the tape describes no run *)
| Fault.                      (* the call raises *)
Arguments Ret {A} a rest.
Arguments Stuck {A}.
Arguments Fault {A}.

Definition gen (A : Type) : Type := tape -> run A.

Definition ret {A} (a : A) : gen A := fun t => Ret a t.

Definition bind {A B} (m : gen A) (k : A -> gen B) : gen B :=
  fun t => match m t with
           | Ret a t' => k a t'
           | Stuck => Stuck
           | Fault => Fault
           end.

Notation "v <- m ;; k" := (bind m (fun v => k))
  (at level 61, m at next level, right associativity).

(** A [for] loop over a list, threading the loop state. *)
Fixpoint for_each {S : Type} (l : list Z) (body : Z -> S -> gen S) (s : S)
  : gen S :=
  match l with
  | [] => ret s
  | i :: l' => s' <- body i s ;; for_each l' body s'
  end.

Definition Qpositive (q : Q) : bool := (0 <? Qnum q)%Z.
Definition Qnonneg (q : Q) : bool := (0 <=? Qnum q)%Z.

(** The finite values of a float tensor, when all of them are finite. *)
Fixpoint finite_values (t : list float) : option (list Q) :=
  match t with
  | [] => Some []
  | None :: _ => None
  | Some q :: t' =>
      match finite_values t' with
      | Some l => Some (q :: l)
      | None => None
      end
  end.

(** [torch.distributions.Categorical(probs)]: the weights must be finite,
    none negative and not all zero; anything else raises. *)
Definition Categorical (probs : list float) : gen (list Q) :=
  fun t =>
    match finite_values probs with
    | Some w =>
        if forallb Qnonneg w && existsb Qpositive w then Ret w t else Fault
    | None => Fault
    end.

(** An index the distribution can produce: in range, of positive weight. *)
Definition in_support (w : list Q) (r : Z) : bool :=
  (0 <=? r) && (r <? Z.of_nat (length w))
  && Qpositive (nth (Z.to_nat r) w 0%Q).

(** [prob_dist.sample().squeeze()]. *)
Definition sample (w : list Q) : gen Z :=
  fun t =>
    match t with
    | [] => Stuck
    | r :: t' => if in_support w r then Ret r t' else Stuck
    end.

(** [new = sample(); while new == node_pick: new = sample()]: draw until
    the value differs from [node_pick]. *)
Fixpoint sample_until_new (w : list Q) (node_pick : Z) (t : tape) : run Z :=
  match t with
  | [] => Stuck
  | r :: t' =>
      if in_support w r
      then if r =? node_pick then sample_until_new w node_pick t'
           else Ret r t'
      else Stuck
  end.

(** ** Exceptions *)

Inductive exn : Type := IndexError | ValueError | AttributeError.

Inductive result (A : Type) : Type :=
| Ok (a : A)
| Err (e : exn).
Arguments Ok {A} a.
Arguments Err {A} e.

Definition rbind {A B} (m : result A) (k : A -> result B) : result B :=
  match m with
  | Ok a => k a
  | Err e => Err e
  end.

Notation "v <~ m ;; k" := (rbind m (fun v => k))
  (at level 61, m at next level, right associativity).

(** [a[i]] on a sequence: out of range raises [IndexError]. *)
Definition getitem {A} (a : list A) (i : nat) : result A :=
  match nth_error a i with
  | Some v => Ok v
  | None => Err IndexError
  end.

(** ** Dense to sparse conversion *)

Definition Qnonzero (q : Q) : bool := negb (Qeq_bool q 0).

(** The nonzero cells of row [i], scanned from column [j] on. *)
Fixpoint nonzero_row (i j : nat) (r : list Q) : list (nat * nat) :=
  match r with
  | [] => []
  | c :: r' =>
      (if Qnonzero c then [(i, j)] else []) ++ nonzero_row i (S j) r'
  end.

(** The nonzero cells of a matrix whose first row has index [i]. *)
Fixpoint nonzero_from (i : nat) (M : list (list Q)) : list (nat * nat) :=
  match M with
  | [] => []
  | r :: M' => nonzero_row i 0 r ++ nonzero_from (S i) M'
  end.

(** Modelled from the spec: [torch_geometric.utils.dense_to_sparse] is
    imported by the module and its code is not part of it.  Section 4.1:
    every cell (i, j) with nonzero value emits the directed edge (i, j),
    in row-major scan order; the result pairs the edge index with the
    values of those cells. *)
Definition dense_to_sparse (M : list (list Q)) : (list Z * list Z) * list Q :=
  let index := nonzero_from 0 M in
  ((map (fun c => Z.of_nat (fst c)) index,
    map (fun c => Z.of_nat (snd c)) index),
   map (fun c => nth (snd c) (nth (fst c) M []) 0%Q) index).

(** The number of nonzero cells of a matrix. *)
Definition count_nonzero (M : list (list Q)) : nat :=
  list_sum (map (fun r => length (filter Qnonzero r)) M).

(** ** Readers of the raw files *)

(** A two-dimensional numpy array of integers. *)
Record ndarray2 : Type := mkArray {
  shape0 : nat;
  shape1 : nat;
  at2 : nat -> nat -> Z
}.

Definition of_rows (rows : list (list Z)) : ndarray2 :=
  mkArray (length rows) (length (hd [] rows))
          (fun i j => nth j (nth i rows []) 0).

(** numpy's broadcasting of one dimension. *)
Definition broadcast_dim (a b : nat) : option nat :=
  if (a =? b)%nat then Some a
  else if (a =? 1)%nat then Some b
  else if (b =? 1)%nat then Some a
  else None.

Definition bcast_index (extent i : nat) : nat :=
  if (extent =? 1)%nat then 0%nat else i.

(** An elementwise operation of two arrays, with broadcasting; shapes
    that do not broadcast raise [ValueError]. *)
Definition np_binop (f : Z -> Z -> Z) (A B : ndarray2) : result ndarray2 :=
  match broadcast_dim (shape0 A) (shape0 B),
        broadcast_dim (shape1 A) (shape1 B) with
  | Some r, Some c =>
      Ok (mkArray r c
            (fun i j =>
               f (at2 A (bcast_index (shape0 A) i) (bcast_index (shape1 A) j))
                 (at2 B (bcast_index (shape0 B) i)
                        (bcast_index (shape1 B) j))))
  | _, _ => Err ValueError
  end.

(** [mask.reshape(-1, 1)] of a one-dimensional boolean array. *)
Definition reshape_col (mask : list bool) : ndarray2 :=
  mkArray (length mask) 1
          (fun i _ => if nth i mask false then 1 else 0).

(** [np.where(v)[0]] of a one-dimensional array: the indices of its
    nonzero entries, ascending. *)
Definition np_where (v : list Z) : list Z :=
  map Z.of_nat
      (filter (fun j => negb (nth j v 0 =? 0)) (seq 0 (length v))).

(** [np.where(a)[1]] of a two-dimensional array: the column index of
    every nonzero entry, the entries taken in row-major order. *)
Definition np_where_cols (a : ndarray2) : list Z :=
  flat_map
    (fun i => map Z.of_nat
                  (filter (fun j => negb (at2 a i j =? 0))
                          (seq 0 (shape1 a))))
    (seq 0 (shape0 a)).

(** What [pickle.load] returns for the two raw formats. *)
Inductive pickle : Type :=
| Pickle3 (dense_edges : list (list (list Q)))
          (node_features : list (list (list Q)))
          (graph_labels : list (list Z))
| Pickle9 (adj : list (list Q)) (features : list (list Q))
          (y_train y_val y_test : ndarray2)
          (train_mask val_mask test_mask : list bool)
          (edge_label_matrix : list (list Q)).

(** The body of the loop of [read_ba2motif_data].  The feature values
    are kept exact: the rounding of [.float()] is outside the model. *)
Definition read_graph (dense_edges node_features : list (list (list Q)))
    (graph_labels : list (list Z)) (graph_idx : nat) : result Data :=
  feat <~ getitem node_features graph_idx ;;
  adj <~ getitem dense_edges graph_idx ;;
  lab <~ getitem graph_labels graph_idx ;;
  Ok (mkData feat (fst (dense_to_sparse adj)) (LongVec (np_where lab))
             None None None).

Fixpoint read_graphs (dense_edges node_features : list (list (list Q)))
    (graph_labels : list (list Z)) (idxs : list nat) (data_list : list Data)
  : result (list Data) :=
  match idxs with
  | [] => Ok data_list
  | graph_idx :: idxs' =>
      d <~ read_graph dense_edges node_features graph_labels graph_idx ;;
      read_graphs dense_edges node_features graph_labels idxs'
                  (data_list ++ [d])
  end.

Definition read_ba2motif_data (p : pickle) : result (list Data) :=
  match p with
  | Pickle3 dense_edges node_features graph_labels =>
      read_graphs dense_edges node_features graph_labels
                  (seq 0 (length dense_edges)) []
  | Pickle9 _ _ _ _ _ _ _ _ _ => Err ValueError
  end.

(** The array [y] of [read_syn_data] before [np.where]. *)
Definition masked_labels (y_train y_val y_test : ndarray2)
    (train_mask val_mask test_mask : list bool) : result ndarray2 :=
  a <~ np_binop Z.mul (reshape_col train_mask) y_train ;;
  b <~ np_binop Z.mul (reshape_col val_mask) y_val ;;
  ab <~ np_binop Z.add a b ;;
  c <~ np_binop Z.mul (reshape_col test_mask) y_test ;;
  np_binop Z.add ab c.

(** [read_syn_data]; as above the feature values are kept exact, the
    rounding of [.float()] is outside the model. *)
Definition read_syn_data (p : pickle) : result Data :=
  match p with
  | Pickle9 adj features y_train y_val y_test
            train_mask val_mask test_mask _ =>
      y <~ masked_labels y_train y_val y_test
                         train_mask val_mask test_mask ;;
      Ok (mkData features (fst (dense_to_sparse adj))
                 (LongVec (np_where_cols y))
                 (Some train_mask) (Some val_mask) (Some test_mask))
  | Pickle3 _ _ _ => Err ValueError
  end.

(** ** Collation *)

(** One entry of a label tensor along its first dimension. *)
Inductive label : Type :=
| LongLabel (c : Z)
| FloatLabel (row : list Q).

Definition labels (t : tensor) : list label :=
  match t with
  | LongVec v => map LongLabel v
  | FloatMat m => map FloatLabel m
  end.

(** The ranges [(start, stop)] of one graph in the concatenated arrays. *)
Record slice : Type := mkSlice {
  x_range : nat * nat;
  edge_range : nat * nat;
  y_range : nat * nat
}.

Record CollatedDataset : Type := mkCollated {
  c_x : list (list Q);
  c_edge_index : list Z * list Z;
  c_y : list label;
  slices : list slice
}.

Definition empty_collated : CollatedDataset := mkCollated [] ([], []) [] [].

Definition shift (offset : nat) (e : list Z * list Z) : list Z * list Z :=
  (map (Z.add (Z.of_nat offset)) (fst e),
   map (Z.add (Z.of_nat offset)) (snd e)).

(** Appending one record to the collated arrays. *)
Definition collate_append (c : CollatedDataset) (d : Data) : CollatedDataset :=
  let nx := length (c_x c) in
  let ne := length (fst (c_edge_index c)) in
  let ny := length (c_y c) in
  mkCollated
    (c_x c ++ x d)
    (cat_dim1 (c_edge_index c) (shift nx (edge_index d)))
    (c_y c ++ labels (y d))
    (slices c ++
       [mkSlice (nx, (nx + length (x d))%nat)
                (ne, (ne + length (fst (edge_index d)))%nat)
                (ny, (ny + length (labels (y d)))%nat)]).

(** Modelled from the spec: [InMemoryDataset.collate] is inherited from
    torch_geometric and its code is not part of the module.  Section 4.3:
    node features, edge indices and labels are concatenated in input
    order, every node index of record k is raised by the number of nodes
    of records 0..k-1, and the slice table records the cumulative offsets
    after each record; the empty sequence gives zero graphs and empty
    arrays. *)
Definition collate (records : list Data) : CollatedDataset :=
  fold_left collate_append records empty_collated.

(** The part of a list a slice range [(start, stop)] designates. *)
Definition sub {A} (r : nat * nat) (l : list A) : list A :=
  firstn (snd r - fst r) (skipn (fst r) l).

(** Ranges that follow one another from [from] up to [total]. *)
Fixpoint partitions (from : nat) (rs : list (nat * nat)) (total : nat)
  : Prop :=
  match rs with
  | [] => from = total
  | r :: rs' => fst r = from /\ (fst r <= snd r)%nat
                /\ partitions (snd r) rs' total
  end.

(** ** The BA-LRP generators *)

Module BA_LRP.

(** The two-node seed graph of both generators, with label [label]. *)
Definition seed (label : Q) : Data :=
  mkData [[1%Q]; [1%Q]] ([0; 1], [1; 0]) (FloatMat [[label]])
         None None None.

(** The tensor [deg] of [gen_class1] at step [i]. *)
Definition class1_deg (i : Z) (data : Data) : list float :=
  map (fun node_idx => degree (fst (edge_index data)) node_idx) (range 0 i).

(** The tensor [probs] of [gen_class1] at step [i]. *)
Definition class1_probs (i : Z) (data : Data) : list float :=
  let deg := class1_deg i data in
  let sum_deg := fsum deg in
  map (fun d => fdiv d sum_deg) deg.

(** One iteration of the loop of [gen_class1]. *)
Definition class1_step (i : Z) (data : Data) : gen Data :=
  let data := set_x data (x data ++ [[1%Q]]) in
  prob_dist <- Categorical (class1_probs i data) ;;
  node_pick <- sample prob_dist ;;
  ret (set_edge_index data
         (cat_dim1 (edge_index data) ([node_pick; i], [i; node_pick]))).

Definition gen_class1 : gen Data :=
  for_each (range 2 20) class1_step (seed 0).

Definition epsilon : float := fin (1 # 1000000000000000000000000000000).

(** One iteration of the inner loop of [gen_class2]; the loop state is
    [(node_pick, data)]. *)
Definition class2_attach (prob_dist : list Q) (i : Z) (st : Z * Data)
  : gen (Z * Data) :=
  new_node_pick <- sample_until_new prob_dist (fst st) ;;
  ret (new_node_pick,
       set_edge_index (snd st)
         (cat_dim1 (edge_index (snd st))
                   ([new_node_pick; i], [i; new_node_pick]))).

(** The tensor [deg_reciprocal] of [gen_class2] at step [i]. *)
Definition class2_deg_reciprocal (i : Z) (data : Data) : list float :=
  map (fun node_idx =>
         fdiv (fin 1) (fadd (degree (fst (edge_index data)) node_idx)
                            epsilon))
      (range 0 i).

(** The tensor [probs] of [gen_class2] at step [i]. *)
Definition class2_probs (i : Z) (data : Data) : list float :=
  let deg_reciprocal := class2_deg_reciprocal i data in
  let sum_deg_reciprocal := fsum deg_reciprocal in
  map (fun d => fdiv d sum_deg_reciprocal) deg_reciprocal.

(** One iteration of the outer loop of [gen_class2]. *)
Definition class2_step (i : Z) (data : Data) : gen Data :=
  let data := set_x data (x data ++ [[1%Q]]) in
  prob_dist <- Categorical (class2_probs i data) ;;
  st <- for_each (range 0 (if negb (i mod 5 =? 4) then 1 else 2))
                 (fun _ => class2_attach prob_dist i) (-1, data) ;;
  ret (snd st).

Definition gen_class2 : gen Data :=
  for_each (range 2 20) class2_step (seed 1).

(** What [process] leaves in the processed file. *)
Inductive processed : Type :=
| CopiedRaw                        (* the raw file, copied as it is *)
| Saved (c : CollatedDataset).     (* [torch.save((data, slices), ...)] *)

(** [process]; [raw_exists] is [files_exist(self.raw_paths)]. *)
Definition process (raw_exists : bool) (num_per_class : Z) : gen processed :=
  if raw_exists then ret CopiedRaw
  else
    data_list <- for_each (range 0 num_per_class)
                   (fun _ data_list =>
                      d1 <- gen_class1 ;;
                      d2 <- gen_class2 ;;
                      ret (data_list ++ [d1] ++ [d2]))
                   [] ;;
    ret (Saved (collate data_list)).

End BA_LRP.

(** ** The datasets read from raw files *)

Module SynGraphDataset.

(** [str.lower] on ASCII text. *)
Definition lower_ascii (c : ascii) : ascii :=
  let n := nat_of_ascii c in
  if ((65 <=? n) && (n <=? 90))%nat then ascii_of_nat (n + 32) else c.

Fixpoint lower (s : string) : string :=
  match s with
  | EmptyString => EmptyString
  | String c s' => String (lower_ascii c) (lower s')
  end.

Section Process.

(** The dataset object holds [(self.data, self.slices)], or nothing
    before they are first assigned.  [len(self)] and [self.get(idx)] are
    inherited from torch_geometric and read that state. *)
Definition store : Type := option CollatedDataset.

Variable self_len : store -> result nat.
Variable self_get : store -> nat -> result Data.

(** [[self.get(idx) for idx in range(len(self))]]. *)
Fixpoint get_all (st : store) (idxs : list nat) : result (list Data) :=
  match idxs with
  | [] => Ok []
  | idx :: idxs' =>
      d <~ self_get st idx ;;
      ds <~ get_all st idxs' ;;
      Ok (d :: ds)
  end.

Definition stored_list (st : store) : result (list Data) :=
  n <~ self_len st ;;
  get_all st (seq 0 n).

(** [process]: the result is what [torch.save] writes and the final
    state of the object. *)
Definition process (name : string) (raw : pickle)
    (pre_filter : option (Data -> bool))
    (pre_transform : option (Data -> Data)) (st : store)
  : result (CollatedDataset * store) :=
  if String.eqb (lower name) (lower "BA_2Motifs") then
    data_list <~ read_ba2motif_data raw ;;
    r1 <~ match pre_filter with
          | Some f =>
              data_list <~ stored_list st ;;
              let data_list := filter f data_list in
              Ok (data_list, Some (collate data_list))
          | None => Ok (data_list, st)
          end ;;
    r2 <~ match pre_transform with
          | Some g =>
              data_list <~ stored_list (snd r1) ;;
              let data_list := map g data_list in
              Ok (data_list, Some (collate data_list))
          | None => Ok r1
          end ;;
    Ok (collate (fst r2), snd r2)
  else
    data <~ read_syn_data raw ;;
    let data := match pre_transform with
                | None => data
                | Some g => g data
                end in
    let data_list := [data] in
    Ok (collate data_list, st).

End Process.

End SynGraphDataset.

(** ** Vocabulary of the statements *)

(** The two directed entries per target that a new node [i] brings. *)
Definition attach (i : Z) (ts : list Z) : list Z * list Z :=
  (flat_map (fun p => [p; i]) ts, flat_map (fun p => [i; p]) ts).

(** The entries brought by the nodes [steps], node by node, when node
    [i] picks the targets listed for it in [picks]. *)
Fixpoint grow (steps : list Z) (picks : list (list Z)) : list Z * list Z :=
  match steps, picks with
  | i :: steps', ts :: picks' => cat_dim1 (attach i ts) (grow steps' picks')
  | _, _ => ([], [])
  end.

(** The directed entries of a list of undirected pairs. *)
Definition both_ways (pairs : list (Z * Z)) : list (Z * Z) :=
  flat_map (fun p => [(fst p, snd p); (snd p, fst p)]) pairs.

Definition edge (e : list Z * list Z) (a b : Z) : Prop := In (a, b) (columns e).

Definition symmetric (e : list Z * list Z) : Prop :=
  forall a b, edge e a b -> edge e b a.

(** Walks along directed entries. *)
Inductive reach (e : list Z * list Z) (a : Z) : Z -> Prop :=
| reach_refl : reach e a a
| reach_step b c : reach e a b -> edge e b c -> reach e a c.

(** A float tensor whose entries are all finite and strictly positive. *)
Definition positive_floats (l : list float) : Prop :=
  Forall (fun d => exists q, d = Some q /\ (0 < q)%Q) l.

(** Every node below [n] is the source of some entry of [e]. *)
Definition covered (n : Z) (e : list Z * list Z) : Prop :=
  forall node, 0 <= node < n -> In node (fst e).

(** A graph on the nodes [0 .. n-1] is connected. *)
Definition connected (n : Z) (e : list Z * list Z) : Prop :=
  forall u v, 0 <= u < n -> 0 <= v < n -> reach e u v.

(** The undirected pairs (target, new node) behind [grow]. *)
Fixpoint grow_pairs (steps : list Z) (picks : list (list Z)) : list (Z * Z) :=
  match steps, picks with
  | i :: steps', ts :: picks' =>
      map (fun p => (p, i)) ts ++ grow_pairs steps' picks'
  | _, _ => []
  end.

(** The shape the growth keeps: on the nodes [0 .. n-1], every entry is a
    node, every node is a source, entries come in both directions and
    every node walks to node 0. *)
Record attached (n : Z) (e : list Z * list Z) : Prop := mkAttached {
  att_rows : length (fst e) = length (snd e);
  att_src : Forall (fun v => 0 <= v < n) (fst e);
  att_dst : Forall (fun v => 0 <= v < n) (snd e);
  att_covered : covered n e;
  att_symmetric : symmetric e;
  att_root : forall v, 0 <= v < n -> reach e v 0
}.

(** The targets a step of [gen_class1] may pick for node [i]. *)
Definition class1_pick (i : Z) (ts : list Z) : Prop :=
  length ts = 1%nat /\ Forall (fun p => 0 <= p < i) ts.

(** The number of targets of node [i] in [gen_class2]. *)
Definition class2_targets (i : Z) : nat := if i mod 5 =? 4 then 2 else 1.

(** The targets a step of [gen_class2] may pick for node [i]. *)
Definition class2_pick (i : Z) (ts : list Z) : Prop :=
  length ts = class2_targets i /\ NoDup ts
  /\ Forall (fun p => 0 <= p < i) ts.

(** A tape of a run of [gen_class2]; at node 4 the second draw repeats
    the first and is drawn again. *)
Definition class2_tape : tape :=
  [0; 0; 0; 0; 1; 0; 0; 0; 0; 0; 1; 0; 1; 0; 1; 1; 0; 0; 0; 0; 1; 1; 0].

(** The cell [M[i][j]] of a matrix given by its rows. *)
Definition cell (M : list (list Q)) (i j : nat) : option Q :=
  match nth_error M i with
  | Some row => nth_error row j
  | None => None
  end.

(** Row-major order of matrix positions. *)
Definition row_major (p q : Z * Z) : Prop :=
  fst p < fst q \/ (fst p = fst q /\ snd p < snd q).

Definition row_major_nat (p q : nat * nat) : Prop :=
  (fst p < fst q)%nat \/ (fst p = fst q /\ (snd p < snd q)%nat).




(** The record [read_ba2motif_data] builds for graph [k]. *)
Definition graph_record (dense_edges node_features : list (list (list Q)))
    (graph_labels : list (list Z)) (k : nat) : Data :=
  mkData (nth k node_features [])
         (fst (dense_to_sparse (nth k dense_edges [])))
         (LongVec (np_where (nth k graph_labels [])))
         None None None.

(** The entry of a boolean mask as a number. *)
Definition mask_value (mask : list bool) (i : nat) : Z :=
  if nth i mask false then 1 else 0.

(** The number of nodes of the records before record [k]. *)
Definition node_offset (records : list Data) (k : nat) : nat :=
  list_sum (map (fun d => length (x d)) (firstn k records)).

(** A 2 x E tensor has two rows of the same length. *)
Definition two_rows (d : Data) : Prop :=
  length (fst (edge_index d)) = length (snd (edge_index d)).

(** What slice [s] of the collated dataset [c] says about record [d],
    whose nodes are numbered from [off] on. *)
Definition slice_of_record (c : CollatedDataset) (off : nat) (d : Data)
    (s : slice) : Prop :=
  fst (x_range s) = off
  /\ sub (x_range s) (c_x c) = x d
  /\ sub (edge_range s) (fst (c_edge_index c))
     = map (Z.add (Z.of_nat off)) (fst (edge_index d))
  /\ sub (edge_range s) (snd (c_edge_index c))
     = map (Z.add (Z.of_nat off)) (snd (edge_index d))
  /\ sub (y_range s) (c_y c) = labels (y d).

(** A graph some run of the generator returns. *)
Definition class1_graph (d : Data) : Prop :=
  exists t r, BA_LRP.gen_class1 t = Ret d r.

Definition class2_graph (d : Data) : Prop :=
  exists t r, BA_LRP.gen_class2 t = Ret d r.

(** Graphs of class 1 and class 2 in turn, starting with class 1. *)
Fixpoint alternating (l : list Data) : Prop :=
  match l with
  | [] => True
  | d1 :: l1 =>
      match l1 with
      | [] => False
      | d2 :: l' => class1_graph d1 /\ class2_graph d2 /\ alternating l'
      end
  end.

(** [data if pre_transform is None else pre_transform(data)]. *)
Definition transformed (pre_transform : option (Data -> Data)) (data : Data)
  : Data :=
  match pre_transform with
  | None => data
  | Some g => g data
  end.

(** A raw file of the single-graph format: two nodes joined by an edge,
    the first in the training set with class 1, the second in the test
    set with class 0. *)
Definition two_node_pickle : pickle :=
  Pickle9 [[0; 1]; [1; 0]]%Q [[1]; [1]]%Q
          (of_rows [[0; 1]; [0; 0]]) (of_rows [[0; 0]; [0; 0]])
          (of_rows [[0; 0]; [1; 0]])
          [true; false] [false; false] [false; true] [].

(** An object whose [data] and [slices] are not assigned. *)
Definition unset_len (st : SynGraphDataset.store) : result nat :=
  match st with
  | None => Err AttributeError
  | Some c => Ok (length (slices c))
  end.

Definition unset_get (st : SynGraphDataset.store) (idx : nat) : result Data :=
  Err AttributeError.

(** The record [gen_class1] returns when the node [i] draws the target
    listed for it in [picks]. *)
Definition class1_record (picks : list Z) : Data :=
  mkData (repeat [1%Q] 20)
         (cat_dim1 ([0; 1], [1; 0])
                   (grow (range 2 20) (map (fun p => [p]) picks)))
         (FloatMat [[0%Q]]) None None None.

(** Targets for the nodes 2 .. 19 of [gen_class2]: node 0 every time, and
    node 1 as well for the nodes 4, 9, 14 and 19. *)
Definition class2_picks : list (list Z) :=
  [[0]; [0]; [0; 1]; [0]; [0]; [0]; [0]; [0; 1]; [0]; [0]; [0]; [0];
   [0; 1]; [0]; [0]; [0]; [0]; [0; 1]].

(** The record of [gen_class1] after its first growth step, when the
    draw is node 0. *)
Definition class1_record_prefix : Data :=
  mkData [[1]; [1]; [1]]%Q ([0; 1; 0; 2], [1; 0; 2; 0]) (FloatMat [[0%Q]])
         None None None.



(** The tape of consecutive runs of [gen_class1] and [gen_class2], each
    pair of runs given by its draws and its targets. *)
Definition runs_tape (runs : list (list Z * list (list Z))) : tape :=
  flat_map (fun run => fst run ++ concat (snd run)) runs.

(** The loop of [BA_LRP.process]: the list of generated graphs. *)
Definition generated_list (num_per_class : Z) : gen (list Data) :=
  for_each (range 0 num_per_class)
    (fun _ data_list =>
       d1 <- BA_LRP.gen_class1 ;;
       d2 <- BA_LRP.gen_class2 ;;
       ret (data_list ++ [d1] ++ [d2]))
    [].

(** The raw file is of the format the dataset name does not select. *)
Definition wrong_format (name : string) (raw : pickle) : bool :=
  let multi := String.eqb (SynGraphDataset.lower name)
                          (SynGraphDataset.lower "BA_2Motifs") in
  match raw with
  | Pickle3 _ _ _ => negb multi
  | Pickle9 _ _ _ _ _ _ _ _ _ => multi
  end.

(** The graphs of consecutive runs given by their draws and targets. *)
Definition runs_edges (runs : list (list Z * list (list Z)))
  : list (list Z * list Z) :=
  flat_map (fun run =>
              [edge_index (class1_record (fst run));
               cat_dim1 ([0; 1], [1; 0]) (grow (range 2 20) (snd run))])
           runs.

(** Draws and targets that the two generators accept. *)
Definition admissible_run (run : list Z * list (list Z)) : Prop :=
  Forall2 (fun i p => 0 <= p < i) (range 2 20) (fst run)
  /\ Forall2 class2_pick (range 2 20) (snd run).

(** A raw file of the multi-graph format: one graph of two nodes joined
    by an edge, of class 1. *)
Definition one_graph_pickle : pickle :=
  Pickle3 [[[0; 1]; [1; 0]]]%Q [[[1]; [1]]]%Q [[0; 1]].

(** The record [read_ba2motif_data] builds from [one_graph_pickle]. *)
Definition one_graph_record : Data :=
  mkData [[1]; [1]]%Q ([0; 1], [1; 0]) (LongVec [1]) None None None.

(** A transform one can tell from the identity: it empties the features. *)
Definition drop_features (d : Data) : Data := set_x d [].

(** The draws and targets of one class-1 and one class-2 graph. *)
Definition plain_run : list Z * list (list Z) := (repeat 0 18, class2_picks).

(** * Properties *)

(** ** Ranges, runs and loops *)

Lemma range_nil lo hi : hi <= lo -> range lo hi = [].
Proof.
  intros H. unfold range.
  replace (Z.to_nat (hi - lo)) with 0%nat by lia. reflexivity.
Qed.

Lemma range_cons lo hi : lo < hi -> range lo hi = lo :: range (lo + 1) hi.
Proof.
  intros H. unfold range.
  replace (Z.to_nat (hi - lo)) with (S (Z.to_nat (hi - (lo + 1)))) by lia.
  cbn [seq map]. f_equal; [lia|].
  rewrite <- seq_shift, map_map. apply map_ext. intros k. lia.
Qed.

Lemma range_length lo hi : length (range lo hi) = Z.to_nat (hi - lo).
Proof. unfold range. now rewrite length_map, length_seq. Qed.

Lemma range_In lo hi k : In k (range lo hi) <-> lo <= k < hi.
Proof.
  unfold range. rewrite in_map_iff. split.
  - intros [j [<- Hj]]. apply in_seq in Hj. lia.
  - intros H. exists (Z.to_nat (k - lo)). split; [lia|].
    apply in_seq. lia.
Qed.

Lemma range_split lo mid hi :
  lo <= mid <= hi -> range lo hi = range lo mid ++ range mid hi.
Proof.
  intros H. remember (Z.to_nat (mid - lo)) as n eqn:Hn.
  revert lo H Hn. induction n as [|n IH]; intros lo H Hn.
  - assert (lo = mid) by lia. subst lo.
    now rewrite (range_nil mid mid) by lia.
  - rewrite (range_cons lo hi), (range_cons lo mid) by lia.
    cbn [app]. f_equal. apply IH; lia.
Qed.

Lemma bind_Ret {A B} (m : gen A) (k : A -> gen B) t b r :
  bind m k t = Ret b r ->
  exists a t', m t = Ret a t' /\ k a t' = Ret b r.
Proof.
  unfold bind. destruct (m t) as [a t'| |]; try discriminate.
  intros H. now exists a, t'.
Qed.

Lemma bind_Fault {A B} (m : gen A) (k : A -> gen B) t :
  bind m k t = Fault ->
  m t = Fault \/ exists a t', m t = Ret a t' /\ k a t' = Fault.
Proof.
  unfold bind. destruct (m t) as [a t'| |]; try discriminate.
  - intros H. right. now exists a, t'.
  - now left.
Qed.

Lemma for_each_app {S} (l1 l2 : list Z) (body : Z -> S -> gen S) s t :
  for_each (l1 ++ l2) body s t
  = bind (for_each l1 body s) (for_each l2 body) t.
Proof.
  revert s t. induction l1 as [|i l1 IH]; intros s t; cbn [for_each app].
  - reflexivity.
  - unfold bind in *. destruct (body i s t) as [s' t'| |]; auto.
Qed.

(** An invariant of the loop body holds when the loop returns. *)
Lemma for_each_inv {S} (P : Z -> S -> Prop) (body : Z -> S -> gen S) hi :
  (forall i s t s' r, P i s -> i < hi -> body i s t = Ret s' r ->
                      P (i + 1) s') ->
  forall lo s t s' r,
    lo <= hi -> P lo s ->
    for_each (range lo hi) body s t = Ret s' r -> P hi s'.
Proof.
  intros Hbody lo s t s' r Hle. remember (Z.to_nat (hi - lo)) as n eqn:Hn.
  revert lo s t Hle Hn. induction n as [|n IH]; intros lo s t Hle Hn HP Hrun.
  - assert (lo = hi) by lia. subst lo. rewrite range_nil in Hrun by lia.
    cbn in Hrun. now inversion Hrun; subst.
  - rewrite range_cons in Hrun by lia. cbn [for_each] in Hrun.
    apply bind_Ret in Hrun as (s1 & t1 & H1 & H2).
    apply (IH (lo + 1) s1 t1); try lia; auto.
    apply (Hbody lo s t s1 t1); auto. lia.
Qed.

(** A loop whose body never raises under the invariant never raises. *)
Lemma for_each_no_fault {S} (P : Z -> S -> Prop) (body : Z -> S -> gen S) hi :
  (forall i s t s' r, P i s -> i < hi -> body i s t = Ret s' r ->
                      P (i + 1) s') ->
  (forall i s t, P i s -> i < hi -> body i s t <> Fault) ->
  forall lo s t,
    lo <= hi -> P lo s -> for_each (range lo hi) body s t <> Fault.
Proof.
  intros Hbody Hsafe lo s t Hle. remember (Z.to_nat (hi - lo)) as n eqn:Hn.
  revert lo s t Hle Hn. induction n as [|n IH]; intros lo s t Hle Hn HP Hrun.
  - rewrite range_nil in Hrun by lia. discriminate.
  - rewrite range_cons in Hrun by lia. cbn [for_each] in Hrun.
    apply bind_Fault in Hrun as [H|(s1 & t1 & H1 & H2)].
    + now apply (Hsafe lo s t); auto; lia.
    + apply (IH (lo + 1) s1 t1); try lia; auto.
      apply (Hbody lo s t s1 t1); auto. lia.
Qed.

(** ** Weights and sampling *)

Lemma Qpositive_iff q : Qpositive q = true <-> (0 < q)%Q.
Proof.
  unfold Qpositive, Qlt. cbn. rewrite Z.ltb_lt. lia.
Qed.

Lemma Qnonneg_of_pos q : (0 < q)%Q -> Qnonneg q = true.
Proof.
  unfold Qnonneg, Qlt. cbn. rewrite Z.leb_le. lia.
Qed.

Lemma Qeq_bool_pos q : (0 < q)%Q -> Qeq_bool q 0 = false.
Proof.
  intros H. destruct (Qeq_bool q 0) eqn:E; [|reflexivity].
  apply Qeq_bool_eq in E. rewrite E in H. now apply Qlt_irrefl in H.
Qed.

Lemma fold_fadd_positive l :
  positive_floats l ->
  forall acc, (0 <= acc)%Q ->
  exists s, fold_left fadd l (Some acc) = Some s /\ (acc <= s)%Q
            /\ (l <> [] -> (0 < s)%Q).
Proof.
  induction 1 as [|d l (q & -> & Hq) Hl IH]; intros acc Hacc.
  - exists acc. split; [reflexivity|]. split; [apply Qle_refl|intros H; now elim H].
  - cbn [fold_left fadd].
    destruct (IH (acc + q)%Q) as (s & Hs & Hle & _).
    { apply Qlt_le_weak in Hq.
      rewrite <- (Qplus_0_r 0). now apply Qplus_le_compat. }
    exists s. split; [exact Hs|]. 
    assert (Hlt : (acc < acc + q)%Q).
    { rewrite <- (Qplus_0_r acc) at 1. apply Qplus_lt_r. exact Hq. }
    split.
    + apply Qlt_le_weak. eapply Qlt_le_trans; eauto.
    + intros _. eapply Qle_lt_trans; [exact Hacc|].
      eapply Qlt_le_trans; eauto.
Qed.

Lemma fsum_positive l :
  positive_floats l -> l <> [] -> exists s, fsum l = Some s /\ (0 < s)%Q.
Proof.
  intros Hl Hne. destruct (fold_fadd_positive l Hl 0%Q (Qle_refl 0))
    as (s & Hs & _ & Hpos).
  exists s. split; [exact Hs|auto].
Qed.

Lemma normalise_positive l :
  positive_floats l -> l <> [] ->
  positive_floats (map (fun d => fdiv d (fsum l)) l).
Proof.
  intros Hl Hne. destruct (fsum_positive l Hl Hne) as (s & -> & Hs).
  unfold positive_floats in *. rewrite Forall_map.
  eapply Forall_impl; [|exact Hl]. intros d (q & -> & Hq).
  cbn [fdiv]. rewrite (Qeq_bool_pos s Hs). eexists. split; [reflexivity|].
  apply Qlt_shift_div_l; [exact Hs|]. now rewrite Qmult_0_l.
Qed.

Lemma finite_values_positive l :
  positive_floats l ->
  exists w, finite_values l = Some w /\ length w = length l
            /\ Forall (fun q => (0 < q)%Q) w.
Proof.
  induction 1 as [|d l (q & -> & Hq) Hl (w & Hw & Hlen & Hall)].
  - exists []. repeat split; constructor.
  - exists (q :: w). cbn [finite_values]. rewrite Hw.
    repeat split; [cbn; congruence|now constructor].
Qed.

(** A distribution over positive weights is accepted. *)
Lemma Categorical_positive probs t :
  positive_floats probs -> probs <> [] ->
  exists w, Categorical probs t = Ret w t /\ length w = length probs
            /\ Forall (fun q => (0 < q)%Q) w.
Proof.
  intros Hp Hne. destruct (finite_values_positive probs Hp)
    as (w & Hw & Hlen & Hall).
  exists w. split; [|now split]. unfold Categorical. rewrite Hw.
  assert (H1 : forallb Qnonneg w = true).
  { apply forallb_forall. intros q Hq. apply Qnonneg_of_pos.
    now apply (proj1 (Forall_forall _ _) Hall). }
  assert (H2 : existsb Qpositive w = true).
  { destruct w as [|q w]; [destruct probs; [congruence|discriminate]|].
    cbn [existsb]. inversion Hall; subst.
    now rewrite (proj2 (Qpositive_iff q)). }
  now rewrite H1, H2.
Qed.

Lemma finite_values_length l w :
  finite_values l = Some w -> length w = length l.
Proof.
  revert w. induction l as [|[q|] l IH]; intros w H; cbn in H.
  - now inversion H.
  - destruct (finite_values l) as [w'|]; [|discriminate].
    inversion H; subst. cbn. f_equal. now apply IH.
  - discriminate.
Qed.

Lemma Categorical_Ret probs t w r :
  Categorical probs t = Ret w r -> r = t /\ length w = length probs.
Proof.
  unfold Categorical. destruct (finite_values probs) as [w'|] eqn:E;
    [|discriminate].
  destruct (forallb Qnonneg w' && existsb Qpositive w'); [|discriminate].
  intros H. inversion H; subst. split; [reflexivity|].
  now apply finite_values_length.
Qed.

Lemma in_support_range w p :
  in_support w p = true -> 0 <= p < Z.of_nat (length w).
Proof.
  unfold in_support. rewrite !andb_true_iff, Z.leb_le, Z.ltb_lt. tauto.
Qed.

Lemma sample_Ret w t p r :
  sample w t = Ret p r -> t = p :: r /\ 0 <= p < Z.of_nat (length w).
Proof.
  unfold sample. destruct t as [|q t]; [discriminate|].
  destruct (in_support w q) eqn:E; [|discriminate].
  intros H. inversion H; subst. split; [reflexivity|].
  now apply in_support_range.
Qed.

Lemma sample_until_new_Ret w node_pick t p r :
  sample_until_new w node_pick t = Ret p r ->
  p <> node_pick /\ 0 <= p < Z.of_nat (length w).
Proof.
  induction t as [|q t IH]; cbn [sample_until_new]; [discriminate|].
  destruct (in_support w q) eqn:E; [|discriminate].
  destruct (q =? node_pick) eqn:Eq; [exact IH|].
  intros H. inversion H; subst. apply Z.eqb_neq in Eq.
  split; [exact Eq|now apply in_support_range].
Qed.

Lemma sample_no_fault w t : sample w t <> Fault.
Proof.
  unfold sample. destruct t as [|q t]; [discriminate|].
  destruct (in_support w q); discriminate.
Qed.

Lemma sample_until_new_no_fault w node_pick t :
  sample_until_new w node_pick t <> Fault.
Proof.
  induction t as [|q t IH]; cbn [sample_until_new]; [discriminate|].
  destruct (in_support w q); [|discriminate].
  destruct (q =? node_pick); [exact IH|discriminate].
Qed.

(** ** One growth step *)

Lemma inject_nat_pos (c : nat) : (1 <= c)%nat -> (0 < inject_Z (Z.of_nat c))%Q.
Proof. intros H. unfold Qlt. cbn. lia. Qed.

Lemma inject_nat_nonneg (c : nat) : (0 <= inject_Z (Z.of_nat c))%Q.
Proof. unfold Qle. cbn. lia. Qed.

Lemma count_eq_pos row node : In node row -> (1 <= count_eq row node)%nat.
Proof.
  intros H. apply (count_occ_In Z.eq_dec) in H. unfold count_eq. lia.
Qed.

Lemma range_not_nil i : 0 < i -> range 0 i <> [].
Proof. intros H. rewrite range_cons by lia. discriminate. Qed.

Lemma map_not_nil {A B} (f : A -> B) l : l <> [] -> map f l <> [].
Proof. destruct l; [congruence|discriminate]. Qed.

Lemma class1_deg_positive i d :
  covered i (edge_index d) -> positive_floats (BA_LRP.class1_deg i d).
Proof.
  intros Hc. unfold positive_floats, BA_LRP.class1_deg.
  rewrite Forall_map. apply Forall_forall. intros node Hin.
  apply range_In in Hin. eexists. split; [reflexivity|].
  apply inject_nat_pos, count_eq_pos, Hc. lia.
Qed.

Lemma class1_probs_positive i d :
  covered i (edge_index d) -> 0 < i ->
  positive_floats (BA_LRP.class1_probs i d) /\ BA_LRP.class1_probs i d <> [].
Proof.
  intros Hc Hi. unfold BA_LRP.class1_probs.
  assert (Hne : BA_LRP.class1_deg i d <> []).
  { apply map_not_nil, range_not_nil, Hi. }
  split; [|now apply map_not_nil].
  apply normalise_positive; [now apply class1_deg_positive|exact Hne].
Qed.

Lemma class2_deg_reciprocal_positive i d :
  positive_floats (BA_LRP.class2_deg_reciprocal i d).
Proof.
  unfold positive_floats, BA_LRP.class2_deg_reciprocal.
  rewrite Forall_map. apply Forall_forall. intros node _.
  unfold degree, BA_LRP.epsilon, fin. cbn [fadd fdiv].
  set (c := inject_Z (Z.of_nat (count_eq (fst (edge_index d)) node))).
  set (eps := (1 # 1000000000000000000000000000000)%Q).
  assert (Hpos : (0 < c + eps)%Q).
  { rewrite Qplus_comm, <- (Qplus_0_r 0). apply Qplus_lt_le_compat.
    - reflexivity.
    - apply inject_nat_nonneg. }
  rewrite (Qeq_bool_pos _ Hpos). eexists. split; [reflexivity|].
  apply Qlt_shift_div_l; [exact Hpos|]. now rewrite Qmult_0_l.
Qed.

Lemma class2_probs_positive i d :
  0 < i ->
  positive_floats (BA_LRP.class2_probs i d) /\ BA_LRP.class2_probs i d <> [].
Proof.
  intros Hi. unfold BA_LRP.class2_probs.
  assert (Hne : BA_LRP.class2_deg_reciprocal i d <> []).
  { apply map_not_nil, range_not_nil, Hi. }
  split; [|now apply map_not_nil].
  apply normalise_positive;
    [apply class2_deg_reciprocal_positive|exact Hne].
Qed.

Lemma class1_probs_length i d :
  length (BA_LRP.class1_probs i d) = Z.to_nat i.
Proof.
  unfold BA_LRP.class1_probs, BA_LRP.class1_deg.
  rewrite !length_map, range_length. f_equal. lia.
Qed.

Lemma class2_probs_length i d :
  length (BA_LRP.class2_probs i d) = Z.to_nat i.
Proof.
  unfold BA_LRP.class2_probs, BA_LRP.class2_deg_reciprocal.
  rewrite !length_map, range_length. f_equal. lia.
Qed.

(** What one step of [gen_class1] does to the record. *)
Lemma class1_step_Ret i d t d' r :
  BA_LRP.class1_step i d t = Ret d' r ->
  exists p, 0 <= p < i
            /\ edge_index d' = cat_dim1 (edge_index d) (attach i [p])
            /\ x d' = x d ++ [[1%Q]] /\ y d' = y d.
Proof.
  unfold BA_LRP.class1_step. intros H.
  apply bind_Ret in H as (w & t1 & Hw & H).
  apply bind_Ret in H as (p & t2 & Hp & H).
  apply Categorical_Ret in Hw as [-> Hlen].
  apply sample_Ret in Hp as [_ Hp].
  rewrite Hlen, class1_probs_length in Hp.
  unfold ret in H. inversion H; subst. exists p.
  split; [lia|]. cbn. auto.
Qed.

(** What one pass of the inner loop of [gen_class2] does. *)
Lemma class2_attach_Ret w i st t st' r :
  BA_LRP.class2_attach w i st t = Ret st' r ->
  fst st' <> fst st /\ 0 <= fst st' < Z.of_nat (length w)
  /\ edge_index (snd st')
     = cat_dim1 (edge_index (snd st)) (attach i [fst st'])
  /\ x (snd st') = x (snd st) /\ y (snd st') = y (snd st).
Proof.
  unfold BA_LRP.class2_attach. intros H.
  apply bind_Ret in H as (p & t1 & Hp & H).
  apply sample_until_new_Ret in Hp as [Hne Hp].
  unfold ret in H. inversion H; subst. cbn. auto.
Qed.

Lemma cat_dim1_assoc a b c :
  cat_dim1 (cat_dim1 a b) c = cat_dim1 a (cat_dim1 b c).
Proof. unfold cat_dim1. cbn. now rewrite <- !app_assoc. Qed.

(** What one step of [gen_class2] does to the record: one target, or two
    different ones when [i mod 5 = 4]. *)
Lemma class2_step_Ret i d t d' r :
  BA_LRP.class2_step i d t = Ret d' r ->
  exists ts, length ts = (if i mod 5 =? 4 then 2%nat else 1%nat)
             /\ NoDup ts /\ Forall (fun p => 0 <= p < i) ts
             /\ edge_index d' = cat_dim1 (edge_index d) (attach i ts)
             /\ x d' = x d ++ [[1%Q]] /\ y d' = y d.
Proof.
  unfold BA_LRP.class2_step. intros H.
  apply bind_Ret in H as (w & t1 & Hw & H).
  apply bind_Ret in H as (st & t2 & Hst & H).
  apply Categorical_Ret in Hw as [-> Hlen].
  rewrite class2_probs_length in Hlen.
  unfold ret in H. inversion H; subst d' r. clear H.
  destruct (i mod 5 =? 4) eqn:E; cbn [negb] in Hst.
  - change (range 0 2) with [0; 1] in Hst. cbn [for_each] in Hst.
    apply bind_Ret in Hst as (s1 & u1 & H1 & Hst).
    apply bind_Ret in Hst as (s2 & u2 & H2 & Hst).
    unfold ret in Hst. inversion Hst; subst st t2. clear Hst.
    apply class2_attach_Ret in H1 as (_ & Hr1 & He1 & Hx1 & Hy1).
    apply class2_attach_Ret in H2 as (Hne & Hr2 & He2 & Hx2 & Hy2).
    cbn [fst snd] in *. exists [fst s1; fst s2].
    split; [reflexivity|]. split.
    { constructor; [|constructor; [intros []|constructor]].
      intros [Hin|[]]. congruence. }
    split. { repeat constructor; lia. }
    split. { rewrite He2, He1, cat_dim1_assoc. reflexivity. }
    split; [rewrite Hx2, Hx1|rewrite Hy2, Hy1]; reflexivity.
  - change (range 0 1) with [0] in Hst. cbn [for_each] in Hst.
    apply bind_Ret in Hst as (s1 & u1 & H1 & Hst).
    unfold ret in Hst. inversion Hst; subst st t2. clear Hst.
    apply class2_attach_Ret in H1 as (_ & Hr1 & He1 & Hx1 & Hy1).
    cbn [fst snd] in *. exists [fst s1].
    split; [reflexivity|]. split.
    { constructor; [intros []|constructor]. }
    split. { repeat constructor; lia. }
    split; [exact He1|]. split; [rewrite Hx1|rewrite Hy1]; reflexivity.
Qed.

Lemma class1_step_no_fault i d t :
  covered i (edge_index d) -> 0 < i -> BA_LRP.class1_step i d t <> Fault.
Proof.
  intros Hc Hi H. unfold BA_LRP.class1_step in H.
  set (d1 := set_x d (x d ++ [[1%Q]])) in H.
  destruct (class1_probs_positive i d1 Hc Hi) as [Hp Hne].
  destruct (Categorical_positive _ t Hp Hne) as (w & Hw & _).
  apply bind_Fault in H as [H|(w' & t1 & _ & H)]; [congruence|].
  apply bind_Fault in H as [H|(p & t2 & _ & H)]; [|discriminate].
  now apply sample_no_fault in H.
Qed.

Lemma class2_attach_no_fault w i st t :
  BA_LRP.class2_attach w i st t <> Fault.
Proof.
  unfold BA_LRP.class2_attach. intros H.
  apply bind_Fault in H as [H|(p & t1 & _ & H)]; [|discriminate].
  now apply sample_until_new_no_fault in H.
Qed.

Lemma class2_step_no_fault i d t : 0 < i -> BA_LRP.class2_step i d t <> Fault.
Proof.
  intros Hi H. unfold BA_LRP.class2_step in H.
  set (d1 := set_x d (x d ++ [[1%Q]])) in H.
  destruct (class2_probs_positive i d1 Hi) as [Hp Hne].
  destruct (Categorical_positive _ t Hp Hne) as (w & Hw & _).
  apply bind_Fault in H as [H|(w' & t1 & _ & H)]; [congruence|].
  apply bind_Fault in H as [H|(st & t2 & _ & H)]; [|discriminate].
  revert H. generalize (-1, d1). generalize t1.
  induction (range 0 (if negb (i mod 5 =? 4) then 1 else 2)) as [|k l IH];
    intros u s H; cbn [for_each] in H; [discriminate|].
  apply bind_Fault in H as [H|(s' & u' & _ & H)].
  - now apply class2_attach_no_fault in H.
  - now apply IH in H.
Qed.

(** ** The shape of a grown graph *)

Lemma combine_append {A B} (l1 l2 : list A) (m1 m2 : list B) :
  length l1 = length m1 ->
  combine (l1 ++ l2) (m1 ++ m2) = combine l1 m1 ++ combine l2 m2.
Proof.
  revert m1. induction l1 as [|a l1 IH]; intros [|b m1] H;
    try discriminate; cbn; [reflexivity|].
  f_equal. apply IH. now inversion H.
Qed.

Lemma columns_cat a b :
  length (fst a) = length (snd a) ->
  columns (cat_dim1 a b) = columns a ++ columns b.
Proof.
  intros H. unfold columns, cat_dim1. cbn [fst snd].
  now rewrite combine_append.
Qed.

Lemma columns_attach i ts :
  columns (attach i ts) = both_ways (map (fun p => (p, i)) ts).
Proof.
  unfold columns, attach, both_ways. cbn [fst snd].
  induction ts as [|p ts IH]; cbn; [reflexivity|]. now rewrite IH.
Qed.

Lemma attach_rows i ts :
  length (fst (attach i ts)) = (2 * length ts)%nat
  /\ length (snd (attach i ts)) = (2 * length ts)%nat.
Proof.
  unfold attach. cbn [fst snd].
  induction ts as [|p ts [IH1 IH2]]; cbn [flat_map length app];
    [split; reflexivity|].
  rewrite IH1, IH2. split; lia.
Qed.

Lemma edge_cat_attach e i ts a b :
  length (fst e) = length (snd e) ->
  edge (cat_dim1 e (attach i ts)) a b
  <-> edge e a b \/ exists p, In p ts /\ ((a, b) = (p, i) \/ (a, b) = (i, p)).
Proof.
  intros Hlen. unfold edge. rewrite (columns_cat e _ Hlen), in_app_iff.
  rewrite columns_attach. unfold both_ways. rewrite in_flat_map.
  split; (intros [H|H]; [now left|right]).
  - destruct H as (q & Hq & Hin). apply in_map_iff in Hq as (p & <- & Hp).
    exists p. split; [exact Hp|]. cbn in Hin.
    destruct Hin as [Hin|[Hin|[]]]; [left|right]; congruence.
  - destruct H as (p & Hp & Hab). exists (p, i). split.
    + apply in_map_iff. now exists p.
    + cbn. destruct Hab as [Hab|Hab]; [left|right; left]; congruence.
Qed.

Lemma reach_trans e a b c : reach e a b -> reach e b c -> reach e a c.
Proof.
  intros Hab Hbc. induction Hbc as [|c c' _ IH Hedge]; [exact Hab|].
  eapply reach_step; eauto.
Qed.

Lemma reach_sym e a b : symmetric e -> reach e a b -> reach e b a.
Proof.
  intros Hs H. induction H as [|b c _ IH Hedge]; [constructor|].
  apply (reach_trans e c b a); [|exact IH].
  eapply reach_step; [constructor|]. now apply Hs.
Qed.

Lemma reach_mono e e' a b :
  (forall u v, edge e u v -> edge e' u v) -> reach e a b -> reach e' a b.
Proof.
  intros Hsub H. induction H as [|b c _ IH Hedge]; [constructor|].
  eapply reach_step; eauto.
Qed.

Lemma attached_seed : attached 2 ([0; 1], [1; 0]).
Proof.
  constructor; cbn [fst snd].
  - reflexivity.
  - repeat constructor; lia.
  - repeat constructor; lia.
  - intros node H. cbn. lia.
  - intros a b [H|[H|[]]]; inversion H; subst; cbn; auto.
  - intros v H. assert (Hv : v = 0 \/ v = 1) by lia.
    destruct Hv as [->| ->]; [constructor|].
    eapply reach_step; [constructor|]. cbn. auto.
Qed.

(** Attaching the new node [i] to targets below [i] keeps the shape. *)
Lemma attached_step i e ts :
  attached i e -> 0 <= i -> ts <> [] -> Forall (fun p => 0 <= p < i) ts ->
  attached (i + 1) (cat_dim1 e (attach i ts)).
Proof.
  intros [Hrows Hsrc Hdst Hcov Hsym Hroot] Hi Hne Hts.
  assert (Hin : forall p, In p ts -> 0 <= p < i).
  { now apply Forall_forall. }
  assert (Hsub : forall u v, edge e u v ->
                             edge (cat_dim1 e (attach i ts)) u v).
  { intros u v H. apply edge_cat_attach; auto. }
  constructor.
  - cbn [cat_dim1 fst snd]. rewrite !length_app.
    destruct (attach_rows i ts) as [-> ->]. lia.
  - cbn [cat_dim1 fst snd attach]. apply Forall_app. split.
    + eapply Forall_impl; [|exact Hsrc]. cbn. intros; lia.
    + apply Forall_forall. intros v Hv. apply in_flat_map in Hv
        as (p & Hp & [<-|[<-|[]]]); [apply Hin in Hp|]; lia.
  - cbn [cat_dim1 fst snd attach]. apply Forall_app. split.
    + eapply Forall_impl; [|exact Hdst]. cbn. intros; lia.
    + apply Forall_forall. intros v Hv. apply in_flat_map in Hv
        as (p & Hp & [<-|[<-|[]]]); [|apply Hin in Hp]; lia.
  - intros node Hnode. cbn [cat_dim1 fst snd attach]. apply in_app_iff.
    destruct (Z.eq_dec node i) as [->|Hneq].
    + right. destruct ts as [|p ts]; [congruence|]. cbn. auto.
    + left. apply Hcov. lia.
  - intros a b H. apply edge_cat_attach in H; auto.
    apply edge_cat_attach; auto. destruct H as [H|(p & Hp & H)].
    + left. now apply Hsym.
    + right. exists p. split; [exact Hp|].
      destruct H as [H|H]; inversion H; subst; auto.
  - intros v Hv. destruct (Z.eq_dec v i) as [->|Hneq].
    + destruct ts as [|p ts]; [congruence|].
      apply (reach_trans _ i p 0).
      * eapply reach_step; [constructor|]. apply edge_cat_attach; auto.
        right. exists p. split; [now left|now right].
      * apply (reach_mono e); auto. apply Hroot, Hin. now left.
    + apply (reach_mono e); auto. apply Hroot. lia.
Qed.

Lemma attached_connected n e : 0 < n -> attached n e -> connected n e.
Proof.
  intros Hn H u v Hu Hv. apply (reach_trans e u 0 v).
  - now apply (att_root n e H).
  - apply reach_sym; [apply (att_symmetric n e H)|].
    now apply (att_root n e H).
Qed.

(** Both loops keep the shape, from any step to any later one. *)
Lemma class1_loop_attached lo hi d t d' r :
  0 <= lo <= hi -> attached lo (edge_index d) ->
  for_each (range lo hi) BA_LRP.class1_step d t = Ret d' r ->
  attached hi (edge_index d').
Proof.
  intros Hle Hatt Hrun.
  refine (proj2 (for_each_inv
                   (fun i s => 0 <= i /\ attached i (edge_index s))
                   BA_LRP.class1_step hi _ lo d t d' r _ _ Hrun));
    [|lia|split; [lia|exact Hatt]].
  intros i s u s' v [Hi Hs] _ Hstep.
  apply class1_step_Ret in Hstep as (p & Hp & -> & _).
  split; [lia|].
  apply attached_step;
    [exact Hs|lia|discriminate|repeat constructor; lia].
Qed.

Lemma class2_loop_attached lo hi d t d' r :
  0 <= lo <= hi -> attached lo (edge_index d) ->
  for_each (range lo hi) BA_LRP.class2_step d t = Ret d' r ->
  attached hi (edge_index d').
Proof.
  intros Hle Hatt Hrun.
  refine (proj2 (for_each_inv
                   (fun i s => 0 <= i /\ attached i (edge_index s))
                   BA_LRP.class2_step hi _ lo d t d' r _ _ Hrun));
    [|lia|split; [lia|exact Hatt]].
  intros i s u s' v [Hi Hs] _ Hstep.
  apply class2_step_Ret in Hstep as (ts & Hlen & _ & Hts & -> & _).
  split; [lia|]. apply attached_step; [exact Hs|lia| |exact Hts].
  intros ->. destruct (i mod 5 =? 4); discriminate.
Qed.

(** ** Counting the entries *)

(** A loop of attaching steps builds [grow] of the targets it picked. *)
Lemma grow_loop (body : Z -> Data -> gen Data) (R : Z -> list Z -> Prop) :
  (forall i d t d' r, body i d t = Ret d' r ->
     exists ts, R i ts
                /\ edge_index d' = cat_dim1 (edge_index d) (attach i ts)
                /\ x d' = x d ++ [[1%Q]] /\ y d' = y d) ->
  forall steps d t d' r,
    for_each steps body d t = Ret d' r ->
    exists picks, Forall2 R steps picks
      /\ edge_index d' = cat_dim1 (edge_index d) (grow steps picks)
      /\ x d' = x d ++ repeat [1%Q] (length steps) /\ y d' = y d.
Proof.
  intros Hbody steps. induction steps as [|i steps IH]; intros d t d' r Hrun.
  - cbn in Hrun. inversion Hrun; subst. exists []. split; [constructor|].
    unfold cat_dim1. cbn. rewrite !app_nil_r. now destruct (edge_index d').
  - cbn [for_each] in Hrun. apply bind_Ret in Hrun as (d1 & t1 & H1 & Hrun).
    apply Hbody in H1 as (ts & HR & He1 & Hx1 & Hy1).
    apply IH in Hrun as (picks & HF & He & Hx & Hy).
    exists (ts :: picks). split; [now constructor|].
    split; [|split].
    + rewrite He, He1. cbn [grow]. apply cat_dim1_assoc.
    + rewrite Hx, Hx1. cbn [length repeat]. now rewrite <- app_assoc.
    + congruence.
Qed.

Lemma grow_rows_length (f : Z -> nat) (R : Z -> list Z -> Prop) :
  (forall i ts, R i ts -> length ts = f i) ->
  forall steps picks, Forall2 R steps picks ->
    length (fst (grow steps picks)) = (2 * list_sum (map f steps))%nat
    /\ length (snd (grow steps picks)) = (2 * list_sum (map f steps))%nat
    /\ length (grow_pairs steps picks) = list_sum (map f steps).
Proof.
  intros Hf steps picks H.
  induction H as [|i ts steps picks HR _ (IH1 & IH2 & IH3)];
    [repeat split; reflexivity|].
  cbn [grow grow_pairs cat_dim1 fst snd map list_sum].
  rewrite !length_app, length_map, IH1, IH2, IH3.
  destruct (attach_rows i ts) as [-> ->]. rewrite (Hf i ts HR).
  change (list_sum (f i :: map f steps))
    with (f i + list_sum (map f steps))%nat.
  repeat split; lia.
Qed.

Lemma both_ways_app l1 l2 : both_ways (l1 ++ l2) = both_ways l1 ++ both_ways l2.
Proof. unfold both_ways. apply flat_map_app. Qed.

Lemma grow_columns steps picks :
  columns (grow steps picks) = both_ways (grow_pairs steps picks).
Proof.
  revert picks. induction steps as [|i steps IH]; intros [|ts picks];
    try reflexivity.
  cbn [grow grow_pairs]. rewrite columns_cat, columns_attach, both_ways_app.
  - now rewrite IH.
  - destruct (attach_rows i ts) as [-> ->]. reflexivity.
Qed.

Lemma class1_step_pick i d t d' r :
  BA_LRP.class1_step i d t = Ret d' r ->
  exists ts, class1_pick i ts
             /\ edge_index d' = cat_dim1 (edge_index d) (attach i ts)
             /\ x d' = x d ++ [[1%Q]] /\ y d' = y d.
Proof.
  intros H. apply class1_step_Ret in H as (p & Hp & He & Hx & Hy).
  exists [p]. split; [|auto]. split; [reflexivity|now repeat constructor].
Qed.

Lemma seed_grow_columns picks :
  columns (cat_dim1 ([0; 1], [1; 0]) (grow (range 2 20) picks))
  = both_ways ((0, 1) :: grow_pairs (range 2 20) picks).
Proof.
  rewrite columns_cat by reflexivity. now rewrite grow_columns.
Qed.

(** ** The two generators *)

(** C1, as the code has it: every run of [gen_class1] that returns gives
    a graph with 20 nodes and label 0 whose edge index holds 38 directed
    entries, the two directions of 19 undirected pairs: the pair of the
    seed graph and one pair for each of the 18 nodes added. *)
Theorem gen_class1_counts (t : tape) (d : Data) (r : tape) :
  BA_LRP.gen_class1 t = Ret d r ->
  length (x d) = 20%nat
  /\ y d = FloatMat [[0%Q]]
  /\ length (fst (edge_index d)) = 38%nat
  /\ length (snd (edge_index d)) = 38%nat
  /\ exists pairs, length pairs = 19%nat
                   /\ columns (edge_index d) = both_ways pairs.
Proof.
  unfold BA_LRP.gen_class1. intros H.
  apply (grow_loop _ class1_pick class1_step_pick) in H
    as (picks & HF & He & Hx & Hy).
  destruct (grow_rows_length (fun _ => 1%nat) class1_pick
              (fun i ts H => proj1 H) _ _ HF) as (L1 & L2 & L3).
  split; [rewrite Hx; reflexivity|]. split; [rewrite Hy; reflexivity|].
  rewrite He. cbn [BA_LRP.seed edge_index].
  split; [cbn [cat_dim1 fst snd length app]; rewrite L1; reflexivity|].
  split; [cbn [cat_dim1 fst snd length app]; rewrite L2; reflexivity|].
  exists ((0, 1) :: grow_pairs (range 2 20) picks).
  split; [cbn [length]; rewrite L3; reflexivity|].
  apply seed_grow_columns.
Qed.

Lemma gen_class1_counts_witness :
  exists d, BA_LRP.gen_class1 (repeat 0 18) = Ret d []
            /\ length (x d) = 20%nat
            /\ length (fst (edge_index d)) = 38%nat.
Proof.
  assert (Hrun : exists d, BA_LRP.gen_class1 (repeat 0 18) = Ret d []).
  { eexists. vm_compute. reflexivity. }
  destruct Hrun as [d Hrun]. exists d. split; [exact Hrun|].
  destruct (gen_class1_counts _ _ _ Hrun) as (H1 & _ & H2 & _).
  exact (conj H1 H2).
Defined.

(** C1 as the specification words it fails: a run of [gen_class1] ends
    with 38 directed entries, not 40. *)
Lemma gen_class1_not_40_entries :
  exists d, BA_LRP.gen_class1 (repeat 0 18) = Ret d []
            /\ length (x d) = 20%nat
            /\ length (fst (edge_index d)) = 38%nat
            /\ length (fst (edge_index d)) <> 40%nat.
Proof.
  eexists. split; [vm_compute; reflexivity|].
  split; [reflexivity|]. split; [reflexivity|]. cbn. lia.
Qed.

Lemma class2_step_pick i d t d' r :
  BA_LRP.class2_step i d t = Ret d' r ->
  exists ts, class2_pick i ts
             /\ edge_index d' = cat_dim1 (edge_index d) (attach i ts)
             /\ x d' = x d ++ [[1%Q]] /\ y d' = y d.
Proof.
  intros H. apply class2_step_Ret in H as (ts & Hl & Hnd & Hts & H).
  exists ts. split; [|exact H]. unfold class2_pick, class2_targets. auto.
Qed.

(** C2, as the code has it: every run of [gen_class2] that returns gives
    a graph with 20 nodes and label 1 whose edge index holds 46 directed
    entries, the two directions of 23 undirected pairs: the pair of the
    seed graph and the 22 pairs of the growth, one per added node and a
    second one, to a different target, for the nodes 4, 9, 14 and 19. *)
Theorem gen_class2_counts (t : tape) (d : Data) (r : tape) :
  BA_LRP.gen_class2 t = Ret d r ->
  length (x d) = 20%nat
  /\ y d = FloatMat [[1%Q]]
  /\ length (fst (edge_index d)) = 46%nat
  /\ length (snd (edge_index d)) = 46%nat
  /\ exists picks,
       Forall2 class2_pick (range 2 20) picks
       /\ edge_index d
          = cat_dim1 ([0; 1], [1; 0]) (grow (range 2 20) picks)
       /\ length (grow_pairs (range 2 20) picks) = 22%nat
       /\ columns (edge_index d)
          = both_ways ((0, 1) :: grow_pairs (range 2 20) picks).
Proof.
  unfold BA_LRP.gen_class2. intros H.
  apply (grow_loop _ class2_pick class2_step_pick) in H
    as (picks & HF & He & Hx & Hy).
  destruct (grow_rows_length class2_targets class2_pick
              (fun i ts H => proj1 H) _ _ HF) as (L1 & L2 & L3).
  split; [rewrite Hx; reflexivity|]. split; [rewrite Hy; reflexivity|].
  rewrite He. cbn [BA_LRP.seed edge_index].
  split; [cbn [cat_dim1 fst snd length app]; rewrite L1; reflexivity|].
  split; [cbn [cat_dim1 fst snd length app]; rewrite L2; reflexivity|].
  exists picks. split; [exact HF|]. split; [reflexivity|].
  split; [rewrite L3; reflexivity|]. apply seed_grow_columns.
Qed.

Lemma gen_class2_counts_witness :
  exists d, BA_LRP.gen_class2 class2_tape = Ret d []
            /\ length (x d) = 20%nat
            /\ length (fst (edge_index d)) = 46%nat.
Proof.
  assert (Hrun : exists d, BA_LRP.gen_class2 class2_tape = Ret d []).
  { eexists. vm_compute. reflexivity. }
  destruct Hrun as [d Hrun]. exists d. split; [exact Hrun|].
  destruct (gen_class2_counts _ _ _ Hrun) as (H1 & _ & H2 & _).
  exact (conj H1 H2).
Defined.

(** C2 as the specification words it fails: a run of [gen_class2] ends
    with 46 directed entries, not 44. *)
Lemma gen_class2_not_44_entries :
  exists d, BA_LRP.gen_class2 class2_tape = Ret d []
            /\ length (x d) = 20%nat
            /\ length (fst (edge_index d)) = 46%nat
            /\ length (fst (edge_index d)) <> 44%nat.
Proof.
  eexists. split; [vm_compute; reflexivity|].
  split; [reflexivity|]. split; [reflexivity|]. cbn. lia.
Qed.

(** C9: the graph of every run of either generator is connected on its
    20 nodes, every entry of its edge index is a node in [0, 20), every
    entry is there in both directions and every node is the source of at
    least one entry; the edge index is the seed pair followed, node by
    node, by the entries of the targets picked below the new node. *)
Theorem generated_graph_connected (t : tape) (d : Data) (r : tape) :
  BA_LRP.gen_class1 t = Ret d r \/ BA_LRP.gen_class2 t = Ret d r ->
  connected 20 (edge_index d)
  /\ Forall (fun v => 0 <= v < 20) (fst (edge_index d))
  /\ Forall (fun v => 0 <= v < 20) (snd (edge_index d))
  /\ symmetric (edge_index d)
  /\ (forall node, 0 <= node < 20 ->
                   (1 <= count_eq (fst (edge_index d)) node)%nat)
  /\ exists picks,
       Forall2 (fun i ts => ts <> [] /\ Forall (fun p => 0 <= p < i) ts)
               (range 2 20) picks
       /\ edge_index d
          = cat_dim1 ([0; 1], [1; 0]) (grow (range 2 20) picks).
Proof.
  intros H.
  assert (Hatt : attached 20 (edge_index d)).
  { destruct H as [H|H].
    - apply (class1_loop_attached 2 20 (BA_LRP.seed 0) t d r);
        [lia|exact attached_seed|exact H].
    - apply (class2_loop_attached 2 20 (BA_LRP.seed 1) t d r);
        [lia|exact attached_seed|exact H]. }
  split; [apply attached_connected; [lia|exact Hatt]|].
  split; [apply (att_src _ _ Hatt)|]. split; [apply (att_dst _ _ Hatt)|].
  split; [apply (att_symmetric _ _ Hatt)|].
  split.
  { intros node Hn. apply count_eq_pos, (att_covered _ _ Hatt), Hn. }
  destruct H as [H|H].
  - apply (grow_loop _ class1_pick class1_step_pick) in H
      as (picks & HF & He & _).
    exists picks. split; [|exact He].
    eapply Forall2_impl; [|exact HF]. intros i ts [Hl Hts].
    split; [now destruct ts|exact Hts].
  - apply (grow_loop _ class2_pick class2_step_pick) in H
      as (picks & HF & He & _).
    exists picks. split; [|exact He].
    eapply Forall2_impl; [|exact HF]. intros i ts (Hl & _ & Hts).
    split; [|exact Hts]. unfold class2_targets in Hl.
    destruct ts; [destruct (i mod 5 =? 4)|]; discriminate.
Qed.

Lemma generated_graph_connected_witness :
  exists d, BA_LRP.gen_class2 class2_tape = Ret d []
            /\ connected 20 (edge_index d).
Proof.
  assert (Hrun : exists d, BA_LRP.gen_class2 class2_tape = Ret d []).
  { eexists. vm_compute. reflexivity. }
  destruct Hrun as [d Hrun]. exists d. split; [exact Hrun|].
  exact (proj1 (generated_graph_connected _ _ _ (or_intror Hrun))).
Defined.

(** The float sum of the degrees is the exact sum of the counts. *)
Lemma fsum_degrees row nodes :
  fsum (map (fun node_idx => degree row node_idx) nodes)
  = Some (inject_Z (Z.of_nat (list_sum (map (count_eq row) nodes)))).
Proof.
  assert (Hacc : forall a,
            fold_left fadd (map (fun node_idx => degree row node_idx) nodes)
                      (Some (inject_Z (Z.of_nat a)))
            = Some (inject_Z
                      (Z.of_nat (a + list_sum (map (count_eq row) nodes))))).
  { induction nodes as [|n nodes IH]; intros a; cbn [map fold_left].
    - cbn [list_sum fold_right]. now rewrite Nat.add_0_r.
    - replace (fadd (Some (inject_Z (Z.of_nat a))) (degree row n))
        with (Some (inject_Z (Z.of_nat (a + count_eq row n)))).
      + rewrite IH. do 3 f_equal.
        change (list_sum (count_eq row n :: map (count_eq row) nodes))
          with (count_eq row n + list_sum (map (count_eq row) nodes))%nat.
        lia.
      + unfold degree, fin, fadd, Qplus, inject_Z. cbn [Qnum Qden].
        f_equal. f_equal. lia. }
  exact (Hacc 0%nat).
Qed.

Lemma list_sum_at_least {A} (f : A -> nat) l :
  (forall a, In a l -> (1 <= f a)%nat) ->
  (length l <= list_sum (map f l))%nat.
Proof.
  induction l as [|a l IH]; intros H; cbn [length map list_sum]; [lia|].
  specialize (H a (or_introl eq_refl)) as Ha.
  assert (length l <= list_sum (map f l))%nat.
  { apply IH. intros b Hb. apply H. now right. }
  change (list_sum (f a :: map f l)) with (f a + list_sum (map f l))%nat.
  lia.
Qed.

(** With every node below [i] a source, the degrees sum to at least
    [i]. *)
Lemma class1_sum_deg i d :
  covered i (edge_index d) -> 0 <= i ->
  exists s, fsum (BA_LRP.class1_deg i d) = Some s
            /\ (inject_Z i <= s)%Q.
Proof.
  intros Hc Hi. unfold BA_LRP.class1_deg. rewrite fsum_degrees.
  eexists. split; [reflexivity|]. rewrite <- Zle_Qle.
  assert (H := list_sum_at_least (count_eq (fst (edge_index d)))
                 (range 0 i)).
  rewrite range_length in H.
  assert (length_bound :
            (Z.to_nat (i - 0)
             <= list_sum (map (count_eq (fst (edge_index d))) (range 0 i)))%nat).
  { apply H. intros node Hn. apply range_In in Hn.
    apply count_eq_pos, Hc. lia. }
  lia.
Qed.

(** The run of a generator passes through every growth step. *)
Lemma gen_class1_at_step i t :
  2 <= i <= 20 ->
  BA_LRP.gen_class1 t
  = bind (for_each (range 2 i) BA_LRP.class1_step (BA_LRP.seed 0))
         (for_each (range i 20) BA_LRP.class1_step) t.
Proof.
  intros H. unfold BA_LRP.gen_class1.
  rewrite (range_split 2 i 20) by lia. apply for_each_app.
Qed.

Lemma gen_class2_at_step i t :
  2 <= i <= 20 ->
  BA_LRP.gen_class2 t
  = bind (for_each (range 2 i) BA_LRP.class2_step (BA_LRP.seed 1))
         (for_each (range i 20) BA_LRP.class2_step) t.
Proof.
  intros H. unfold BA_LRP.gen_class2.
  rewrite (range_split 2 i 20) by lia. apply for_each_app.
Qed.

(** C10: at every growth step [i] of a run, in [gen_class1] the degrees
    of the nodes [0 .. i-1] sum to a finite number that is at least 2,
    so strictly positive, [probs] is a tensor of finite positive
    weights and the step does not raise; in [gen_class2] every reciprocal weight is finite and
    strictly positive, so is [probs], and the step does not raise. *)
Theorem sampling_weights_well_defined (i : Z) (t : tape) :
  2 <= i < 20 ->
  (forall d r,
     for_each (range 2 i) BA_LRP.class1_step (BA_LRP.seed 0) t = Ret d r ->
     (exists s, fsum (BA_LRP.class1_deg i d) = Some s
                /\ (2 <= s)%Q /\ (0 < s)%Q)
     /\ positive_floats (BA_LRP.class1_probs i d)
     /\ forall t', BA_LRP.class1_step i d t' <> Fault)
  /\ (forall d r,
        for_each (range 2 i) BA_LRP.class2_step (BA_LRP.seed 1) t = Ret d r ->
        positive_floats (BA_LRP.class2_deg_reciprocal i d)
        /\ positive_floats (BA_LRP.class2_probs i d)
        /\ forall t', BA_LRP.class2_step i d t' <> Fault).
Proof.
  intros Hi. split; intros d r Hrun.
  - assert (Hc : covered i (edge_index d)).
    { apply att_covered.
      apply (class1_loop_attached 2 i (BA_LRP.seed 0) t d r);
        [lia|exact attached_seed|exact Hrun]. }
    split; [|split].
    + destruct (class1_sum_deg i d Hc) as (s & Hs & Hle); [lia|].
      exists s. split; [exact Hs|].
      assert (H2 : (2 <= s)%Q).
      { eapply Qle_trans; [|exact Hle].
        change 2%Q with (inject_Z 2). rewrite <- Zle_Qle. lia. }
      split; [exact H2|]. eapply Qlt_le_trans; [|exact H2]. reflexivity.
    + apply class1_probs_positive; [exact Hc|lia].
    + intros t'. apply class1_step_no_fault; [exact Hc|lia].
  - split; [|split].
    + apply class2_deg_reciprocal_positive.
    + apply class2_probs_positive. lia.
    + intros t'. apply class2_step_no_fault. lia.
Qed.

Lemma sampling_weights_well_defined_witness :
  positive_floats (BA_LRP.class1_probs 2 (BA_LRP.seed 0))
  /\ positive_floats (BA_LRP.class2_probs 2 (BA_LRP.seed 1)).
Proof.
  destruct (sampling_weights_well_defined 2 [] ltac:(lia)) as [H1 H2].
  split.
  - exact (proj1 (proj2 (H1 (BA_LRP.seed 0) [] eq_refl))).
  - exact (proj1 (proj2 (H2 (BA_LRP.seed 1) [] eq_refl))).
Defined.

(** Neither generator raises, whatever the tape. *)
Lemma gen_class1_no_fault t : BA_LRP.gen_class1 t <> Fault.
Proof.
  unfold BA_LRP.gen_class1.
  apply (for_each_no_fault
           (fun i s => 0 < i /\ attached i (edge_index s))).
  - intros i s u s' v [Hi Hs] _ Hstep.
    apply class1_step_Ret in Hstep as (p & Hp & -> & _).
    split; [lia|].
    apply attached_step; [exact Hs|lia|discriminate|].
    repeat constructor; lia.
  - intros i s u [Hi Hs] _.
    apply class1_step_no_fault; [apply (att_covered _ _ Hs)|exact Hi].
  - lia.
  - split; [lia|exact attached_seed].
Qed.

Lemma gen_class2_no_fault t : BA_LRP.gen_class2 t <> Fault.
Proof.
  unfold BA_LRP.gen_class2.
  apply (for_each_no_fault (fun i (s : Data) => 0 < i)).
  - intros i s u s' v Hi _ _. lia.
  - intros i s u Hi _. now apply class2_step_no_fault.
  - lia.
  - lia.
Qed.

(** ** Dense to sparse conversion *)

Lemma Qnonzero_iff c : Qnonzero c = true <-> ~ (c == 0)%Q.
Proof.
  unfold Qnonzero. rewrite negb_true_iff. split.
  - intros H E. apply Qeq_bool_iff in E. congruence.
  - intros H. destruct (Qeq_bool c 0) eqn:E; [|reflexivity].
    apply Qeq_bool_iff in E. contradiction.
Qed.

Lemma nonzero_row_In i j0 r a b :
  In (a, b) (nonzero_row i j0 r)
  <-> a = i /\ exists k c, b = (j0 + k)%nat /\ nth_error r k = Some c
                           /\ Qnonzero c = true.
Proof.
  revert j0. induction r as [|c r IH]; intros j0; cbn [nonzero_row].
  - split; [intros []|]. intros (_ & [|k] & c & _ & H & _); discriminate.
  - rewrite in_app_iff, IH. split.
    + intros [H|(-> & k & c' & -> & Hk & Hc)].
      * destruct (Qnonzero c) eqn:E; [|destruct H].
        destruct H as [H|[]]. inversion H; subst. split; [reflexivity|].
        exists 0%nat, c. repeat split; auto; lia.
      * split; [reflexivity|]. exists (S k), c'. repeat split; auto; lia.
    + intros (-> & [|k] & c' & -> & Hk & Hc); cbn in Hk.
      * inversion Hk; subst. left. rewrite Hc. left. f_equal. lia.
      * right. split; [reflexivity|]. exists k, c'.
        repeat split; auto; lia.
Qed.

Lemma nonzero_from_In i0 M a b :
  In (a, b) (nonzero_from i0 M)
  <-> exists k c, a = (i0 + k)%nat /\ cell M k b = Some c
                  /\ Qnonzero c = true.
Proof.
  revert i0. induction M as [|r M IH]; intros i0; cbn [nonzero_from].
  - split; [intros []|]. intros ([|k] & c & _ & H & _); discriminate.
  - rewrite in_app_iff, nonzero_row_In, IH. split.
    + intros [(-> & k & c & -> & Hk & Hc)|(k & c & -> & Hk & Hc)].
      * exists 0%nat, c. repeat split; auto; lia.
      * exists (S k), c. repeat split; auto; lia.
    + intros ([|k] & c & -> & Hk & Hc).
      * left. split; [lia|]. exists b, c. repeat split; auto.
      * right. exists k, c. repeat split; auto; lia.
Qed.

Lemma nonzero_row_length i j0 r :
  length (nonzero_row i j0 r) = length (filter Qnonzero r).
Proof.
  revert j0. induction r as [|c r IH]; intros j0; cbn; [reflexivity|].
  destruct (Qnonzero c); cbn; now rewrite IH.
Qed.

Lemma nonzero_from_length i0 M :
  length (nonzero_from i0 M) = count_nonzero M.
Proof.
  revert i0. induction M as [|r M IH]; intros i0; [reflexivity|].
  cbn [nonzero_from]. rewrite length_app, nonzero_row_length, IH.
  reflexivity.
Qed.

Lemma sorted_app {A} (R : A -> A -> Prop) l1 l2 :
  StronglySorted R l1 -> StronglySorted R l2 ->
  (forall a b, In a l1 -> In b l2 -> R a b) ->
  StronglySorted R (l1 ++ l2).
Proof.
  intros H1 H2 H12. induction H1 as [|a l1 Hs IH Ha]; [exact H2|].
  cbn [app]. constructor.
  - apply IH. intros u v Hu Hv. apply H12; [now right|exact Hv].
  - apply Forall_app. split; [exact Ha|].
    apply Forall_forall. intros v Hv. apply H12; [now left|exact Hv].
Qed.

Lemma nonzero_row_sorted i j0 r :
  StronglySorted row_major_nat (nonzero_row i j0 r).
Proof.
  revert j0. induction r as [|c r IH]; intros j0; cbn [nonzero_row];
    [constructor|].
  apply sorted_app; [destruct (Qnonzero c); repeat constructor|apply IH|].
  intros [a b] [a' b'] Ha Hb.
  destruct (Qnonzero c); [|destruct Ha]. destruct Ha as [Ha|[]].
  inversion Ha; subst. apply nonzero_row_In in Hb as (-> & k & _ & -> & _).
  right. cbn. lia.
Qed.

Lemma nonzero_from_sorted i0 M :
  StronglySorted row_major_nat (nonzero_from i0 M).
Proof.
  revert i0. induction M as [|r M IH]; intros i0; cbn [nonzero_from];
    [constructor|].
  apply sorted_app; [apply nonzero_row_sorted|apply IH|].
  intros [a b] [a' b'] Ha Hb.
  apply nonzero_row_In in Ha as (-> & _).
  apply nonzero_from_In in Hb as (k & _ & -> & _).
  left. cbn. lia.
Qed.

Lemma sorted_map {A B} (R : A -> A -> Prop) (R' : B -> B -> Prop)
    (f : A -> B) l :
  (forall a b, R a b -> R' (f a) (f b)) ->
  StronglySorted R l -> StronglySorted R' (map f l).
Proof.
  intros Hf H. induction H as [|a l _ IH Ha]; cbn; constructor; auto.
  rewrite Forall_map. eapply Forall_impl; [|exact Ha]. auto.
Qed.

Lemma columns_of_index (index : list (nat * nat)) :
  columns (map (fun c => Z.of_nat (fst c)) index,
           map (fun c => Z.of_nat (snd c)) index)
  = map (fun c => (Z.of_nat (fst c), Z.of_nat (snd c))) index.
Proof.
  unfold columns. cbn [fst snd].
  induction index as [|c index IH]; cbn; [reflexivity|]. now rewrite IH.
Qed.

Example dense_to_sparse_square :
  dense_to_sparse [[0; 2; 0]; [1; 0; 0]; [0; 1; 1]]%Q
  = (([0; 1; 2; 2], [1; 0; 1; 2]), [2; 1; 1; 1]%Q).
Proof. reflexivity. Qed.

(** C5: the conversion emits the directed edge (i, j) exactly for the
    cells [M[i][j]] that are nonzero, in row-major scan order; both rows
    of the edge index have as many entries as the matrix has nonzero
    cells; a matrix with no nonzero cell gives the empty edge list. *)
Theorem dense_to_sparse_nonzero_cells (M : list (list Q)) :
  (forall a b,
     edge (fst (dense_to_sparse M)) a b
     <-> exists i j c, a = Z.of_nat i /\ b = Z.of_nat j
                       /\ cell M i j = Some c /\ ~ (c == 0)%Q)
  /\ StronglySorted row_major (columns (fst (dense_to_sparse M)))
  /\ length (fst (fst (dense_to_sparse M))) = count_nonzero M
  /\ length (snd (fst (dense_to_sparse M))) = count_nonzero M
  /\ ((forall i j c, cell M i j = Some c -> (c == 0)%Q) ->
      dense_to_sparse M = (([], []), [])).
Proof.
  unfold dense_to_sparse. cbn [fst snd]. split; [|split; [|split; [|split]]].
  - intros a b. unfold edge. rewrite columns_of_index, in_map_iff. split.
    + intros ([i j] & H & Hin). inversion H; subst. cbn [fst snd].
      apply nonzero_from_In in Hin as (k & c & -> & Hc & Hnz).
      exists k, j, c. repeat split; auto. now apply Qnonzero_iff.
    + intros (i & j & c & -> & -> & Hc & Hnz). exists (i, j).
      split; [reflexivity|]. apply nonzero_from_In. exists i, c.
      repeat split; auto. now apply Qnonzero_iff.
  - rewrite columns_of_index.
    apply (sorted_map row_major_nat); [|apply nonzero_from_sorted].
    intros [a b] [a' b']. unfold row_major, row_major_nat. cbn. lia.
  - now rewrite length_map, nonzero_from_length.
  - now rewrite length_map, nonzero_from_length.
  - intros Hz. destruct (nonzero_from 0 M) as [|[a b] l] eqn:E;
      [reflexivity|].
    assert (Hin : In (a, b) (nonzero_from 0 M)) by (rewrite E; now left).
    apply nonzero_from_In in Hin as (k & c & _ & Hc & Hnz).
    apply Qnonzero_iff in Hnz. elim Hnz. now apply (Hz k b).
Qed.

(** ** The readers *)




Lemma getitem_nth {A} (a : list A) i default :
  (i < length a)%nat -> getitem a i = Ok (nth i a default).
Proof.
  intros H. unfold getitem.
  destruct (nth_error a i) as [v|] eqn:E.
  - f_equal. symmetry. now apply nth_error_nth.
  - apply nth_error_None in E. lia.
Qed.

Lemma getitem_out {A} (a : list A) i :
  (length a <= i)%nat -> getitem a i = Err IndexError.
Proof.
  intros H. unfold getitem. now rewrite (proj2 (nth_error_None a i) H).
Qed.

Lemma read_graph_ok de nf gl k :
  (k < length de)%nat -> (k < length nf)%nat -> (k < length gl)%nat ->
  read_graph de nf gl k = Ok (graph_record de nf gl k).
Proof.
  intros H1 H2 H3. unfold read_graph.
  rewrite (getitem_nth nf k []), (getitem_nth de k []),
    (getitem_nth gl k []) by assumption.
  reflexivity.
Qed.

Lemma read_graphs_ok de nf gl idxs acc :
  (forall k, In k idxs ->
     (k < length de)%nat /\ (k < length nf)%nat /\ (k < length gl)%nat) ->
  read_graphs de nf gl idxs acc
  = Ok (acc ++ map (graph_record de nf gl) idxs).
Proof.
  revert acc. induction idxs as [|k idxs IH]; intros acc H;
    cbn [read_graphs map].
  - now rewrite app_nil_r.
  - destruct (H k (or_introl eq_refl)) as (H1 & H2 & H3).
    rewrite read_graph_ok by assumption. cbn [rbind].
    rewrite IH by (intros j Hj; apply H; now right).
    now rewrite <- app_assoc.
Qed.




(** The only error of the reader: an array shorter than [dense_edges]
    is indexed out of range. *)
Lemma read_ba2motif_data_index_error de nf gl :
  (length nf < length de)%nat \/ (length gl < length de)%nat ->
  read_ba2motif_data (Pickle3 de nf gl) = Err IndexError.
Proof.
  intros H. cbn [read_ba2motif_data].
  set (m := Nat.min (length nf) (length gl)).
  assert (Hm : (m < length de)%nat) by lia.
  replace (length de) with (m + S (length de - m - 1))%nat by lia.
  rewrite seq_app. generalize (@nil Data).
  assert (Hpre : forall k, In k (seq 0 m) ->
            (k < length de)%nat /\ (k < length nf)%nat
            /\ (k < length gl)%nat).
  { intros k Hk. apply in_seq in Hk. lia. }
  revert Hpre. generalize (seq 0 m). intros pre Hpre acc. revert acc.
  induction pre as [|k pre IH]; intros acc.
  - cbn [app seq read_graphs Nat.add]. unfold read_graph.
    destruct (Nat.le_gt_cases (length nf) m) as [Hnf|Hnf].
    + now rewrite (getitem_out nf m Hnf).
    + rewrite (getitem_nth nf m []), (getitem_nth de m []) by lia.
      cbn [rbind]. now rewrite (getitem_out gl m) by lia.
  - cbn [app read_graphs].
    destruct (Hpre k (or_introl eq_refl)) as (H1 & H2 & H3).
    rewrite read_graph_ok by assumption. cbn [rbind].
    apply IH. intros j Hj. apply Hpre. now right.
Qed.

Lemma broadcast_dim_same a : broadcast_dim a a = Some a.
Proof. unfold broadcast_dim. now rewrite Nat.eqb_refl. Qed.

Lemma broadcast_dim_one c : broadcast_dim 1 c = Some c.
Proof.
  unfold broadcast_dim. destruct (Nat.eqb_spec 1 c) as [<-|_]; reflexivity.
Qed.

Lemma bcast_index_lt n i : (i < n)%nat -> bcast_index n i = i.
Proof.
  intros H. unfold bcast_index.
  destruct (Nat.eqb_spec n 1) as [->|_]; lia.
Qed.

(** The array [y] of [read_syn_data] on arrays of the documented shapes:
    V rows and C columns, the masked sum of the three label arrays. *)
Lemma masked_labels_ok y_train y_val y_test train_mask val_mask test_mask V C :
  length train_mask = V -> length val_mask = V -> length test_mask = V ->
  shape0 y_train = V -> shape0 y_val = V -> shape0 y_test = V ->
  shape1 y_train = C -> shape1 y_val = C -> shape1 y_test = C ->
  exists Y,
    masked_labels y_train y_val y_test train_mask val_mask test_mask = Ok Y
    /\ shape0 Y = V /\ shape1 Y = C
    /\ forall i j, (i < V)%nat -> (j < C)%nat ->
         at2 Y i j = mask_value train_mask i * at2 y_train i j
                     + mask_value val_mask i * at2 y_val i j
                     + mask_value test_mask i * at2 y_test i j.
Proof.
  intros L1 L2 L3 R1 R2 R3 C1 C2 C3.
  unfold masked_labels, np_binop, reshape_col. cbn [shape0 shape1 at2 rbind].
  rewrite L1, L2, L3, R1, R2, R3, C1, C2, C3.
  rewrite !broadcast_dim_same, !broadcast_dim_one.
  cbn [shape0 shape1 at2 rbind]. rewrite !broadcast_dim_same.
  cbn [shape0 shape1 at2 rbind]. rewrite !broadcast_dim_same.
  eexists. split; [reflexivity|]. cbn [shape0 shape1 at2].
  split; [reflexivity|]. split; [reflexivity|].
  intros i j Hi Hj. unfold mask_value.
  now rewrite !(bcast_index_lt V i Hi), !(bcast_index_lt C j Hj).
Qed.







(** The reader raises nothing but the [ValueError] of arrays whose
    shapes do not broadcast or of a file of the other format. *)
Lemma read_syn_data_errors p e : read_syn_data p = Err e -> e = ValueError.
Proof.
  destruct p as [? ? ?|adj features yt yv ys tm vm sm elm];
    cbn [read_syn_data]; [intros H; now inversion H|].
  unfold masked_labels, np_binop.
  repeat match goal with
         | |- context [broadcast_dim ?a ?b] =>
             destruct (broadcast_dim a b); cbn [rbind shape0 shape1]
         end;
    intros H; now inversion H.
Qed.

(** ** Collation *)

Lemma collate_snoc records d :
  collate (records ++ [d]) = collate_append (collate records) d.
Proof. unfold collate. now rewrite fold_left_app. Qed.

Lemma sub_app_l {A} (r : nat * nat) (a b : list A) :
  (snd r <= length a)%nat -> sub r (a ++ b) = sub r a.
Proof.
  intros H. unfold sub. rewrite skipn_app, firstn_app, length_skipn.
  replace (snd r - fst r - (length a - fst r))%nat with 0%nat by lia.
  cbn [firstn]. apply app_nil_r.
Qed.

Lemma sub_app_r {A} (a b : list A) n :
  n = length b -> sub (length a, (length a + n)%nat) (a ++ b) = b.
Proof.
  intros ->. unfold sub. cbn [fst snd]. rewrite skipn_app, skipn_all.
  replace (length a - length a)%nat with 0%nat by lia. cbn [skipn app].
  replace (length a + length b - length a)%nat with (length b) by lia.
  apply firstn_all.
Qed.

Lemma partitions_snoc from rs total n :
  partitions from rs total ->
  partitions from (rs ++ [(total, (total + n)%nat)]) (total + n).
Proof.
  revert from. induction rs as [|r rs IH]; intros from; cbn.
  - intros ->. repeat split; lia.
  - intros (H1 & H2 & H3). repeat split; auto.
Qed.

Lemma partitions_bound from rs total :
  partitions from rs total ->
  (from <= total)%nat
  /\ forall r, In r rs -> (from <= fst r)%nat /\ (snd r <= total)%nat.
Proof.
  revert from. induction rs as [|r rs IH]; intros from; cbn.
  - intros ->. split; [lia|intros r []].
  - intros (H1 & H2 & H3). destruct (IH _ H3) as [Hle Hrs].
    split; [lia|]. intros q [<-|Hq]; [lia|].
    destruct (Hrs q Hq). lia.
Qed.

Lemma node_offset_snoc records d k :
  (k <= length records)%nat ->
  node_offset (records ++ [d]) k = node_offset records k.
Proof.
  intros H. unfold node_offset. rewrite firstn_app.
  replace (k - length records)%nat with 0%nat by lia.
  cbn [firstn]. now rewrite app_nil_r.
Qed.

Lemma nth_error_lt {A} (l : list A) k a :
  nth_error l k = Some a -> (k < length l)%nat.
Proof. intros H. apply nth_error_Some. congruence. Qed.

Lemma list_sum_snoc l n : list_sum (l ++ [n]) = (list_sum l + n)%nat.
Proof. rewrite list_sum_app. cbn. lia. Qed.

(** Everything the collated dataset keeps, record after record. *)
Lemma collate_invariant records :
  Forall two_rows records ->
  let c := collate records in
  length (slices c) = length records
  /\ length (c_x c) = node_offset records (length records)
  /\ length (fst (c_edge_index c)) = length (snd (c_edge_index c))
  /\ partitions 0 (map x_range (slices c)) (length (c_x c))
  /\ partitions 0 (map edge_range (slices c))
                (length (fst (c_edge_index c)))
  /\ partitions 0 (map y_range (slices c)) (length (c_y c))
  /\ forall k d s,
       nth_error records k = Some d -> nth_error (slices c) k = Some s ->
       slice_of_record c (node_offset records k) d s.
Proof.
  induction records as [|d records IH] using rev_ind; intros Hwf c.
  - subst c. cbn. do 6 (split; [reflexivity|]).
    intros [|k] d s H; discriminate.
  - apply Forall_app in Hwf as [Hwf Hd]. inversion Hd as [|? ? Hd' _]; subst.
    specialize (IH Hwf). cbn zeta in IH.
    destruct IH as (Hn & Hx & Hrows & Px & Pe & Py & Hk).
    subst c. rewrite collate_snoc. set (c := collate records) in *.
    unfold collate_append. cbn [slices c_x c_edge_index c_y cat_dim1 shift
                                fst snd].
    rewrite !length_app, !length_map, !map_app. cbn [map length].
    split; [lia|]. split.
    { unfold node_offset. rewrite firstn_all2 by (rewrite length_app; cbn; lia).
      rewrite map_app. cbn [map]. rewrite list_sum_snoc.
      rewrite Hx. unfold node_offset. now rewrite firstn_all. }
    split; [unfold two_rows in Hd'; lia|].
    split; [now apply partitions_snoc|].
    split; [now apply partitions_snoc|].
    split; [now apply partitions_snoc|].
    intros k d' s Hrec Hs.
    destruct (Nat.lt_ge_cases k (length records)) as [Hlt|Hge].
    + rewrite nth_error_app1 in Hrec by exact Hlt.
      rewrite nth_error_app1 in Hs by lia.
      destruct (Hk k d' s Hrec Hs) as (K1 & K2 & K3 & K4 & K5).
      assert (Hin : In s (slices c)) by (eapply nth_error_In; eauto).
      destruct (partitions_bound _ _ _ Px) as [_ Bx].
      destruct (partitions_bound _ _ _ Pe) as [_ Be].
      destruct (partitions_bound _ _ _ Py) as [_ By].
      destruct (Bx (x_range s) (in_map x_range _ _ Hin)) as [_ Bx'].
      destruct (Be (edge_range s) (in_map edge_range _ _ Hin)) as [_ Be'].
      destruct (By (y_range s) (in_map y_range _ _ Hin)) as [_ By'].
      unfold slice_of_record.
      cbn [c_x c_edge_index c_y cat_dim1 shift fst snd].
      rewrite node_offset_snoc by lia.
      rewrite !sub_app_l by lia. auto.
    + assert (k = length records).
      { apply nth_error_lt in Hrec. rewrite length_app in Hrec.
        cbn in Hrec.
        lia. }
      subst k. rewrite nth_error_app2 in Hrec by lia.
      rewrite nth_error_app2 in Hs by lia.
      rewrite Hn, Nat.sub_diag in Hs. rewrite Nat.sub_diag in Hrec.
      cbn in Hrec, Hs. inversion Hrec; subst d'. inversion Hs; subst s.
      unfold slice_of_record.
      cbn [x_range edge_range y_range c_x c_edge_index c_y cat_dim1 shift
           fst snd].
      rewrite node_offset_snoc by lia. rewrite <- Hx.
      split; [reflexivity|].
      split; [now apply sub_app_r|].
      split; [apply sub_app_r; now rewrite length_map|].
      split; [|now apply sub_app_r].
      rewrite Hrows. apply sub_app_r. rewrite length_map.
      unfold two_rows in Hd'. lia.
Qed.

(** C7: the collated dataset has one slice per record; the ranges of the
    slices follow one another from 0 to the length of each concatenated
    array, so they neither overlap nor leave a gap; slice k holds the
    features, the labels and the edges of record k, the node indices
    raised by the number of nodes of the records before it; the empty
    list is collated into zero slices and empty arrays. *)
Theorem collate_slices (records : list Data) :
  Forall two_rows records ->
  length (slices (collate records)) = length records
  /\ partitions 0 (map x_range (slices (collate records)))
                (length (c_x (collate records)))
  /\ partitions 0 (map edge_range (slices (collate records)))
                (length (fst (c_edge_index (collate records))))
  /\ partitions 0 (map edge_range (slices (collate records)))
                (length (snd (c_edge_index (collate records))))
  /\ partitions 0 (map y_range (slices (collate records)))
                (length (c_y (collate records)))
  /\ (forall k d,
        nth_error records k = Some d ->
        exists s, nth_error (slices (collate records)) k = Some s
                  /\ slice_of_record (collate records)
                                     (node_offset records k) d s)
  /\ collate [] = mkCollated [] ([], []) [] [].
Proof.
  intros Hwf.
  destruct (collate_invariant records Hwf)
    as (Hn & Hx & Hrows & Px & Pe & Py & Hk).
  split; [exact Hn|]. split; [exact Px|]. split; [exact Pe|].
  split; [rewrite <- Hrows; exact Pe|]. split; [exact Py|].
  split; [|reflexivity].
  intros k d Hd.
  destruct (nth_error (slices (collate records)) k) as [s|] eqn:Hs.
  - exists s. split; [reflexivity|]. now apply Hk.
  - apply nth_error_None in Hs. apply nth_error_lt in Hd. lia.
Qed.

Lemma collate_slices_witness :
  length (slices (collate [BA_LRP.seed 0; BA_LRP.seed 1])) = 2%nat
  /\ c_edge_index (collate [BA_LRP.seed 0; BA_LRP.seed 1])
     = ([0; 1; 2; 3], [1; 0; 3; 2]).
Proof.
  split; [|reflexivity].
  apply (collate_slices [BA_LRP.seed 0; BA_LRP.seed 1]).
  repeat constructor.
Defined.

Example collate_two_graphs :
  collate [BA_LRP.seed 0; BA_LRP.seed 1]
  = mkCollated [[1]; [1]; [1]; [1]]%Q ([0; 1; 2; 3], [1; 0; 3; 2])
               [FloatLabel [0%Q]; FloatLabel [1%Q]]
               [mkSlice (0, 2) (0, 2) (0, 1); mkSlice (2, 4) (2, 4) (1, 2)]%nat.
Proof. reflexivity. Qed.

Lemma collate_c_y records :
  c_y (collate records) = flat_map (fun d => labels (y d)) records.
Proof.
  induction records as [|d records IH] using rev_ind; [reflexivity|].
  rewrite collate_snoc, flat_map_app. cbn [collate_append c_y flat_map].
  now rewrite IH, app_nil_r.
Qed.

Lemma collate_c_x records : c_x (collate records) = flat_map x records.
Proof.
  induction records as [|d records IH] using rev_ind; [reflexivity|].
  rewrite collate_snoc, flat_map_app. cbn [collate_append c_x flat_map].
  now rewrite IH, app_nil_r.
Qed.

(** ** Building the BA-LRP dataset *)

Lemma class1_graph_label d : class1_graph d -> y d = FloatMat [[0%Q]].
Proof.
  intros (t & r & H). unfold BA_LRP.gen_class1 in H.
  apply (grow_loop _ class1_pick class1_step_pick) in H as (_ & _ & _ & _ & H).
  exact H.
Qed.

Lemma class2_graph_label d : class2_graph d -> y d = FloatMat [[1%Q]].
Proof.
  intros (t & r & H). unfold BA_LRP.gen_class2 in H.
  apply (grow_loop _ class2_pick class2_step_pick) in H as (_ & _ & _ & _ & H).
  exact H.
Qed.

Lemma class1_graph_rows d : class1_graph d -> two_rows d.
Proof.
  intros (t & r & H). apply (att_rows 20).
  apply (class1_loop_attached 2 20 (BA_LRP.seed 0) t d r);
    [lia|exact attached_seed|exact H].
Qed.

Lemma class2_graph_rows d : class2_graph d -> two_rows d.
Proof.
  intros (t & r & H). apply (att_rows 20).
  apply (class2_loop_attached 2 20 (BA_LRP.seed 1) t d r);
    [lia|exact attached_seed|exact H].
Qed.

Lemma alternating_app l1 l2 :
  alternating l1 -> alternating l2 -> alternating (l1 ++ l2).
Proof.
  revert l1. fix IH 1. intros [|d1 [|d2 l1]] H1 H2; cbn in *.
  - exact H2.
  - destruct H1.
  - destruct H1 as (A & B & C). repeat split; auto.
Qed.

Lemma alternating_facts l :
  alternating l ->
  Forall two_rows l
  /\ forall m, length l = (2 * m)%nat ->
       map y l = concat (repeat [FloatMat [[0%Q]]; FloatMat [[1%Q]]] m).
Proof.
  revert l. fix IH 1. intros [|d1 [|d2 l]] H; cbn in H.
  - split; [constructor|]. intros [|m] Hm; [reflexivity|discriminate].
  - destruct H.
  - destruct H as (A & B & C). destruct (IH l C) as [Hwf Hy]. split.
    + constructor; [now apply class1_graph_rows|].
      constructor; [now apply class2_graph_rows|exact Hwf].
    + intros [|m] Hm; [discriminate|]. cbn [repeat concat map app].
      rewrite (class1_graph_label d1 A), (class2_graph_label d2 B).
      do 2 f_equal. apply Hy. cbn in Hm. lia.
Qed.

(** The loop of [process] appends a class-1 graph and a class-2 graph
    per iteration. *)
Lemma process_loop steps acc t l r :
  for_each steps
    (fun _ data_list =>
       d1 <- BA_LRP.gen_class1 ;;
       d2 <- BA_LRP.gen_class2 ;;
       ret (data_list ++ [d1] ++ [d2])) acc t = Ret l r ->
  exists gs, l = acc ++ gs /\ length gs = (2 * length steps)%nat
             /\ alternating gs.
Proof.
  revert acc t. induction steps as [|i steps IH]; intros acc t H.
  - cbn in H. inversion H; subst. exists []. rewrite app_nil_r.
    repeat split.
  - cbn [for_each] in H. apply bind_Ret in H as (acc1 & t1 & Hbody & H).
    apply bind_Ret in Hbody as (d1 & u1 & H1 & Hbody).
    apply bind_Ret in Hbody as (d2 & u2 & H2 & Hbody).
    unfold ret in Hbody. inversion Hbody; subst acc1 t1. clear Hbody.
    apply IH in H as (gs & -> & Hlen & Halt).
    exists ([d1] ++ [d2] ++ gs). split; [now rewrite <- !app_assoc|].
    split; [cbn [length app]; lia|].
    cbn [app alternating]. split; [now exists t, u1|].
    split; [now exists u1, u2|exact Halt].
Qed.

(** What a run of [process] that returns has saved, when no raw file is
    there: the collation of twice [num_per_class] generated graphs, of
    class 1 and class 2 in turn, in that order in its labels and slices. *)
Lemma process_saved_list (num_per_class : Z) (t : tape)
    (c : CollatedDataset) (r : tape) :
  BA_LRP.process false num_per_class t = Ret (BA_LRP.Saved c) r ->
  (exists data_list,
     c = collate data_list
     /\ length data_list = (2 * Z.to_nat num_per_class)%nat
     /\ alternating data_list
     /\ map y data_list
        = concat (repeat [FloatMat [[0%Q]]; FloatMat [[1%Q]]]
                         (Z.to_nat num_per_class))
     /\ length (slices c) = (2 * Z.to_nat num_per_class)%nat
     /\ c_y c = concat (repeat [FloatLabel [0%Q]; FloatLabel [1%Q]]
                               (Z.to_nat num_per_class))
     /\ forall k d, nth_error data_list k = Some d ->
          exists s, nth_error (slices c) k = Some s
                    /\ slice_of_record c (node_offset data_list k) d s)
  /\ forall t0, BA_LRP.process false 0 t0
                = Ret (BA_LRP.Saved empty_collated) t0.
Proof.
  intros H. split; [|reflexivity].
  unfold BA_LRP.process in H. apply bind_Ret in H as (l & t1 & Hloop & H).
  unfold ret in H. inversion H; subst c r. clear H.
  apply process_loop in Hloop as (gs & -> & Hlen & Halt).
  cbn [app]. rewrite range_length, Z.sub_0_r in Hlen.
  destruct (alternating_facts gs Halt) as [Hwf Hy].
  destruct (collate_invariant gs Hwf) as (Hn & _ & _ & _ & _ & _ & Hk).
  exists gs. split; [reflexivity|]. split; [exact Hlen|].
  split; [exact Halt|]. split; [now apply Hy|].
  split; [now rewrite Hn|]. split.
  - rewrite collate_c_y, flat_map_concat_map.
    rewrite <- (map_map y labels gs), (Hy _ Hlen).
    clear. induction (Z.to_nat num_per_class) as [|m IH]; [reflexivity|].
    cbn [repeat concat map app labels]. now rewrite IH.
  - intros k d Hd.
    destruct (nth_error (slices (collate gs)) k) as [s|] eqn:Hs.
    + exists s. split; [reflexivity|]. now apply Hk.
    + apply nth_error_None in Hs. apply nth_error_lt in Hd. lia.
Qed.

(** ** Processing a raw file *)

(** The paths of [process] that do save the records read: for a dataset
    of the single-graph format the transform, when one is given, is
    applied to the record read before collation and the collation of
    that one record is saved; for the multi-graph format with neither
    hook the collation of the records read is saved. *)
Lemma process_hooks
    (self_len : SynGraphDataset.store -> result nat)
    (self_get : SynGraphDataset.store -> nat -> result Data)
    (name : string) (raw : pickle)
    (pre_filter : option (Data -> bool))
    (pre_transform : option (Data -> Data))
    (st : SynGraphDataset.store) :
  (String.eqb (SynGraphDataset.lower name)
              (SynGraphDataset.lower "BA_2Motifs") = false ->
   forall data, read_syn_data raw = Ok data ->
     SynGraphDataset.process self_len self_get name raw
                             pre_filter pre_transform st
     = Ok (collate [transformed pre_transform data], st))
  /\ (String.eqb (SynGraphDataset.lower name)
                 (SynGraphDataset.lower "BA_2Motifs") = true ->
      forall data_list, read_ba2motif_data raw = Ok data_list ->
        SynGraphDataset.process self_len self_get name raw None None st
        = Ok (collate data_list, st)).
Proof.
  split; intros Hname d Hread; unfold SynGraphDataset.process;
    rewrite Hname, Hread; cbn [rbind fst snd].
  - destruct pre_transform; reflexivity.
  - reflexivity.
Qed.

Lemma process_hooks_witness :
  exists data,
    read_syn_data two_node_pickle = Ok data
    /\ SynGraphDataset.process unset_len unset_get "BA_shapes"
         two_node_pickle None (Some (fun d => set_x d [])) None
       = Ok (collate [set_x data []], None).
Proof.
  eexists. split; [reflexivity|].
  apply (proj1 (process_hooks unset_len unset_get "BA_shapes"
                  two_node_pickle None (Some (fun d => set_x d [])) None));
    reflexivity.
Defined.

(** For the multi-graph format a hook is not given the records read:
    whatever the file holds, the hooks see the records the object
    already stores. *)
Lemma process_multi_hooks_skip_read
    (self_len : SynGraphDataset.store -> result nat)
    (self_get : SynGraphDataset.store -> nat -> result Data)
    (raw1 raw2 : pickle) (l1 l2 : list Data)
    (pre_filter : option (Data -> bool)) (g : Data -> Data)
    (st : SynGraphDataset.store) :
  read_ba2motif_data raw1 = Ok l1 ->
  read_ba2motif_data raw2 = Ok l2 ->
  SynGraphDataset.process self_len self_get "BA_2Motifs" raw1
                          pre_filter (Some g) st
  = SynGraphDataset.process self_len self_get "BA_2Motifs" raw2
                            pre_filter (Some g) st.
Proof.
  intros H1 H2. unfold SynGraphDataset.process.
  change (String.eqb (SynGraphDataset.lower "BA_2Motifs")
                     (SynGraphDataset.lower "BA_2Motifs")) with true.
  cbv iota. rewrite H1, H2. cbn [rbind].
  destruct pre_filter as [f|]; cbn [rbind fst snd].
  - destruct (SynGraphDataset.stored_list self_len self_get st);
      reflexivity.
  - reflexivity.
Qed.

(** ** Runs exist *)

Lemma in_support_positive w p :
  Forall (fun q => (0 < q)%Q) w -> 0 <= p < Z.of_nat (length w) ->
  in_support w p = true.
Proof.
  intros Hw Hp. unfold in_support.
  rewrite (proj2 (Z.leb_le 0 p)), (proj2 (Z.ltb_lt p _)) by lia.
  cbn [andb]. apply Qpositive_iff.
  apply (proj1 (Forall_forall _ w) Hw). apply nth_In. lia.
Qed.

(** A step of [gen_class1] accepts every draw below [i]. *)
Lemma class1_step_returns i d p t :
  covered i (edge_index d) -> 0 < i -> 0 <= p < i ->
  exists d', BA_LRP.class1_step i d (p :: t) = Ret d' t.
Proof.
  intros Hc Hi Hp. unfold BA_LRP.class1_step.
  set (d1 := set_x d (x d ++ [[1%Q]])).
  destruct (class1_probs_positive i d1 Hc Hi) as [Hpos Hne].
  destruct (Categorical_positive _ (p :: t) Hpos Hne) as (w & Hw & Hlen & Hall).
  unfold bind at 1. rewrite Hw. unfold bind, sample.
  rewrite in_support_positive; [eexists; reflexivity|exact Hall|].
  rewrite Hlen, class1_probs_length. lia.
Qed.

(** Every sequence of 18 draws, the draw for node [i] below [i], is the
    tape of a run of [gen_class1]. *)
Lemma gen_class1_returns picks rest :
  Forall2 (fun i p => 0 <= p < i) (range 2 20) picks ->
  exists d, BA_LRP.gen_class1 (picks ++ rest) = Ret d rest.
Proof.
  unfold BA_LRP.gen_class1.
  assert (Hgen : forall n lo d ps,
            Z.to_nat (20 - lo) = n -> 0 < lo ->
            attached lo (edge_index d) ->
            Forall2 (fun i p => 0 <= p < i) (range lo 20) ps ->
            exists d', for_each (range lo 20) BA_LRP.class1_step d
                                (ps ++ rest) = Ret d' rest).
  { induction n as [|n IH]; intros lo d ps Hn Hlo Hatt HF.
    - rewrite range_nil in * by lia. inversion HF; subst.
      exists d. reflexivity.
    - rewrite range_cons in * by lia.
      inversion HF as [|i p steps ps' Hp HF' E1 E2]; subst.
      cbn [for_each app].
      destruct (class1_step_returns lo d p (ps' ++ rest)
                  (att_covered _ _ Hatt) Hlo Hp) as (d1 & H1).
      unfold bind. rewrite H1.
      apply (IH (lo + 1) d1 ps'); [lia|lia| |exact HF'].
      apply class1_step_Ret in H1 as (q & Hq & -> & _).
      apply attached_step; [exact Hatt|lia|discriminate|].
      repeat constructor; lia. }
  intros HF. apply (Hgen _ 2 (BA_LRP.seed 0) picks eq_refl);
    [lia|exact attached_seed|exact HF].
Qed.

Lemma sample_until_new_first w node_pick p t :
  Forall (fun q => (0 < q)%Q) w -> 0 <= p < Z.of_nat (length w) ->
  p <> node_pick -> sample_until_new w node_pick (p :: t) = Ret p t.
Proof.
  intros Hw Hp Hne. cbn [sample_until_new].
  rewrite (in_support_positive w p Hw Hp).
  now rewrite (proj2 (Z.eqb_neq p node_pick) Hne).
Qed.

(** A step of [gen_class2] accepts every choice of targets below [i],
    two different ones when [i mod 5 = 4] and one otherwise. *)
Lemma class2_step_returns i d ts t :
  0 < i -> class2_pick i ts ->
  exists d', BA_LRP.class2_step i d (ts ++ t) = Ret d' t.
Proof.
  intros Hi (Hlen & Hnd & Hts). unfold BA_LRP.class2_step.
  set (d1 := set_x d (x d ++ [[1%Q]])).
  destruct (class2_probs_positive i d1 Hi) as [Hpos Hne].
  destruct (Categorical_positive _ (ts ++ t) Hpos Hne)
    as (w & Hw & Hwlen & Hall).
  rewrite class2_probs_length in Hwlen.
  unfold bind at 1. rewrite Hw. unfold class2_targets in Hlen.
  destruct (i mod 5 =? 4); cbn [negb].
  - destruct ts as [|a [|b [|c ts]]]; try discriminate.
    inversion Hts as [|? ? Ha Hts']; subst.
    inversion Hts' as [|? ? Hb _]; subst.
    inversion Hnd as [|? ? Hab _]; subst.
    change (range 0 2) with [0; 1]. cbn [for_each app].
    unfold bind, BA_LRP.class2_attach, bind. cbn [fst snd].
    rewrite sample_until_new_first; [|exact Hall|lia|lia].
    unfold ret. cbn [fst snd].
    rewrite sample_until_new_first; [|exact Hall|lia|].
    + eexists. reflexivity.
    + intros ->. apply Hab. now left.
  - destruct ts as [|a [|b ts]]; try discriminate.
    inversion Hts as [|? ? Ha _]; subst.
    change (range 0 1) with [0]. cbn [for_each app].
    unfold bind, BA_LRP.class2_attach, bind. cbn [fst snd].
    rewrite sample_until_new_first; [|exact Hall|lia|lia].
    eexists. reflexivity.
Qed.

(** Every choice of targets [gen_class2] allows is made by some run:
    the tape that lists the targets in order. *)
Lemma gen_class2_returns picks rest :
  Forall2 class2_pick (range 2 20) picks ->
  exists d, BA_LRP.gen_class2 (concat picks ++ rest) = Ret d rest.
Proof.
  unfold BA_LRP.gen_class2.
  assert (Hgen : forall n lo d ps,
            Z.to_nat (20 - lo) = n -> 0 < lo ->
            Forall2 class2_pick (range lo 20) ps ->
            exists d', for_each (range lo 20) BA_LRP.class2_step d
                                (concat ps ++ rest) = Ret d' rest).
  { induction n as [|n IH]; intros lo d ps Hn Hlo HF.
    - rewrite range_nil in * by lia. inversion HF; subst.
      exists d. reflexivity.
    - rewrite range_cons in * by lia.
      inversion HF as [|i ts steps ps' Hp HF' E1 E2]; subst.
      cbn [for_each concat]. rewrite <- app_assoc.
      destruct (class2_step_returns lo d ts (concat ps' ++ rest) Hlo Hp)
        as (d1 & H1).
      unfold bind. rewrite H1.
      apply (IH (lo + 1) d1 ps'); [lia|lia|exact HF']. }
  intros HF. apply (Hgen _ 2 (BA_LRP.seed 1) picks eq_refl); [lia|exact HF].
Qed.

(** * Further properties *)

(** ** The generators as functions of the draws *)

(** X1: neither generator raises, whatever the random source draws: a
    run of [gen_class1] or of [gen_class2] returns a graph or is cut
    short by the end of the tape, it never fails in building or sampling
    a distribution. *)
Theorem generators_never_raise (t : tape) :
  BA_LRP.gen_class1 t <> Fault /\ BA_LRP.gen_class2 t <> Fault.
Proof. split; [apply gen_class1_no_fault|apply gen_class2_no_fault]. Qed.

(** A step of [gen_class1] makes one draw and appends its two entries. *)
Lemma class1_step_exact i d t d' r :
  BA_LRP.class1_step i d t = Ret d' r ->
  exists p, t = p :: r /\ 0 <= p < i
            /\ d' = set_edge_index (set_x d (x d ++ [[1%Q]]))
                      (cat_dim1 (edge_index d) (attach i [p])).
Proof.
  unfold BA_LRP.class1_step. intros H.
  apply bind_Ret in H as (w & t1 & Hw & H).
  apply bind_Ret in H as (p & t2 & Hp & H).
  apply Categorical_Ret in Hw as [-> Hlen].
  apply sample_Ret in Hp as [Ht Hp].
  rewrite Hlen, class1_probs_length in Hp.
  unfold ret in H. inversion H; subst. exists p.
  split; [reflexivity|]. split; [lia|reflexivity].
Qed.

Lemma class1_loop_exact steps d t d' r :
  for_each steps BA_LRP.class1_step d t = Ret d' r ->
  exists picks,
    t = picks ++ r
    /\ Forall2 (fun i p => 0 <= p < i) steps picks
    /\ d' = mkData (x d ++ repeat [1%Q] (length steps))
                   (cat_dim1 (edge_index d)
                             (grow steps (map (fun p => [p]) picks)))
                   (y d) (train_mask d) (val_mask d) (test_mask d).
Proof.
  revert d t. induction steps as [|i steps IH]; intros d t Hrun.
  - cbn in Hrun. inversion Hrun; subst. exists [].
    split; [reflexivity|]. split; [constructor|].
    cbn [length repeat map grow]. unfold cat_dim1. cbn [fst snd].
    rewrite !app_nil_r. now destruct d' as [? [? ?] ? ? ? ?].
  - cbn [for_each] in Hrun. apply bind_Ret in Hrun as (d1 & t1 & H1 & Hrun).
    apply class1_step_exact in H1 as (p & -> & Hp & ->).
    apply IH in Hrun as (picks & -> & HF & ->).
    exists (p :: picks). split; [reflexivity|].
    split; [now constructor|].
    cbn [set_edge_index set_x x edge_index y train_mask val_mask test_mask
         length repeat map grow].
    rewrite cat_dim1_assoc, <- app_assoc. reflexivity.
Qed.

Lemma Forall2_same_length {A B} (R : A -> B -> Prop) l1 l2 :
  Forall2 R l1 l2 -> length l1 = length l2.
Proof. induction 1; cbn; congruence. Qed.

(** Admissible draws are consumed and give their record. *)
Lemma gen_class1_on_picks picks r :
  Forall2 (fun i p => 0 <= p < i) (range 2 20) picks ->
  BA_LRP.gen_class1 (picks ++ r) = Ret (class1_record picks) r.
Proof.
  intros HF. destruct (gen_class1_returns picks r HF) as (d' & Hrun).
  rewrite Hrun. f_equal.
  unfold BA_LRP.gen_class1 in Hrun.
  apply class1_loop_exact in Hrun as (picks' & Ht & HF' & Hd).
  assert (Hlen : length picks' = length picks).
  { rewrite <- (Forall2_same_length _ _ _ HF').
    now rewrite <- (Forall2_same_length _ _ _ HF). }
  assert (picks' = picks).
  { apply (f_equal (firstn (length picks))) in Ht.
    rewrite firstn_app, Nat.sub_diag, firstn_all in Ht.
    rewrite firstn_app, <- Hlen, Nat.sub_diag, firstn_all in Ht.
    cbn [firstn] in Ht. rewrite !app_nil_r in Ht. congruence. }
  subst picks'. exact Hd.
Qed.

(** X2: the runs of [gen_class1] are exactly the sequences of 18 draws
    in which the draw for node [i] is an existing node, below [i]; the
    run consumes these 18 draws and nothing else, and the graph it
    returns is the seed pair followed, for each node in turn, by the
    entries (draw, i) and (i, draw), with 20 feature rows [1.0] and
    label 0. *)
Theorem gen_class1_runs (t : tape) (d : Data) (r : tape) :
  BA_LRP.gen_class1 t = Ret d r
  <-> exists picks,
        t = picks ++ r
        /\ Forall2 (fun i p => 0 <= p < i) (range 2 20) picks
        /\ d = class1_record picks.
Proof.
  split.
  - unfold BA_LRP.gen_class1. intros H.
    apply class1_loop_exact in H as (picks & Ht & HF & Hd).
    exists picks. split; [exact Ht|]. split; [exact HF|exact Hd].
  - intros (picks & -> & HF & ->). now apply gen_class1_on_picks.
Qed.

(** A step of [gen_class2] that is offered admissible targets takes
    them, in order. *)
Lemma class2_step_takes i d ts t :
  0 < i -> class2_pick i ts ->
  exists d', BA_LRP.class2_step i d (ts ++ t) = Ret d' t
             /\ edge_index d' = cat_dim1 (edge_index d) (attach i ts)
             /\ x d' = x d ++ [[1%Q]] /\ y d' = y d.
Proof.
  intros Hi (Hlen & Hnd & Hts). unfold BA_LRP.class2_step.
  set (d1 := set_x d (x d ++ [[1%Q]])).
  destruct (class2_probs_positive i d1 Hi) as [Hpos Hne].
  destruct (Categorical_positive _ (ts ++ t) Hpos Hne)
    as (w & Hw & Hwlen & Hall).
  rewrite class2_probs_length in Hwlen.
  unfold bind at 1. rewrite Hw. unfold class2_targets in Hlen.
  destruct (i mod 5 =? 4); cbn [negb].
  - destruct ts as [|a [|b [|c ts]]]; try discriminate.
    inversion Hts as [|? ? Ha Hts']; subst.
    inversion Hts' as [|? ? Hb _]; subst.
    inversion Hnd as [|? ? Hab _]; subst.
    change (range 0 2) with [0; 1]. cbn [for_each app].
    unfold bind, BA_LRP.class2_attach, bind. cbn [fst snd].
    rewrite sample_until_new_first; [|exact Hall|lia|lia].
    unfold ret. cbn [fst snd].
    rewrite sample_until_new_first; [|exact Hall|lia|].
    + eexists. split; [reflexivity|].
      cbn [snd edge_index set_edge_index x y]. subst d1.
      cbn [edge_index set_x x y]. rewrite cat_dim1_assoc. auto.
    + intros ->. apply Hab. now left.
  - destruct ts as [|a [|b ts]]; try discriminate.
    inversion Hts as [|? ? Ha _]; subst.
    change (range 0 1) with [0]. cbn [for_each app].
    unfold bind, BA_LRP.class2_attach, bind. cbn [fst snd].
    rewrite sample_until_new_first; [|exact Hall|lia|lia].
    eexists. split; [reflexivity|]. subst d1. cbn. auto.
Qed.

Lemma class2_loop_takes n :
  forall lo d ps rest,
    Z.to_nat (20 - lo) = n -> 0 < lo ->
    Forall2 class2_pick (range lo 20) ps ->
    exists d', for_each (range lo 20) BA_LRP.class2_step d
                        (concat ps ++ rest) = Ret d' rest
               /\ edge_index d'
                  = cat_dim1 (edge_index d) (grow (range lo 20) ps)
               /\ x d' = x d ++ repeat [1%Q] (length (range lo 20))
               /\ y d' = y d.
Proof.
  induction n as [|n IH]; intros lo d ps rest Hn Hlo HF.
  - rewrite range_nil in * by lia. inversion HF; subst.
    exists d. split; [reflexivity|]. cbn [grow length repeat].
    unfold cat_dim1. cbn [fst snd]. rewrite !app_nil_r.
    now destruct (edge_index d).
  - rewrite range_cons in * by lia.
    inversion HF as [|i ts steps ps' Hp HF' E1 E2]; subst.
    cbn [for_each concat]. rewrite <- app_assoc.
    destruct (class2_step_takes lo d ts (concat ps' ++ rest) Hlo Hp)
      as (d1 & H1 & He1 & Hx1 & Hy1).
    unfold bind. rewrite H1.
    destruct (IH (lo + 1) d1 ps' rest) as (d' & Hrun & He & Hx & Hy);
      [lia|lia|exact HF'|].
    exists d'. split; [exact Hrun|].
    split; [rewrite He, He1; cbn [grow]; apply cat_dim1_assoc|].
    split; [|congruence].
    rewrite Hx, Hx1. cbn [length repeat]. now rewrite <- app_assoc.
Qed.

(** X3: every choice of targets that [gen_class2] allows is made by a
    run: when the node [i] is given targets below [i], two different
    ones if [i mod 5 = 4] and one otherwise, the tape that lists them in
    order is consumed to the end of the list and the graph returned has
    20 nodes, label 1 and exactly the entries of these targets after the
    seed pair. *)
Theorem gen_class2_takes_every_choice (picks : list (list Z)) (rest : tape) :
  Forall2 class2_pick (range 2 20) picks ->
  exists d, BA_LRP.gen_class2 (concat picks ++ rest) = Ret d rest
            /\ edge_index d
               = cat_dim1 ([0; 1], [1; 0]) (grow (range 2 20) picks)
            /\ length (x d) = 20%nat
            /\ y d = FloatMat [[1%Q]].
Proof.
  intros HF. unfold BA_LRP.gen_class2.
  destruct (class2_loop_takes _ 2 (BA_LRP.seed 1) picks rest eq_refl
              ltac:(lia) HF) as (d & Hrun & He & Hx & Hy).
  exists d. split; [exact Hrun|]. split; [exact He|].
  split; [rewrite Hx; reflexivity|exact Hy].
Qed.

Lemma gen_class2_takes_every_choice_witness :
  exists d, BA_LRP.gen_class2 (concat class2_picks ++ []) = Ret d []
            /\ edge_index d
               = cat_dim1 ([0; 1], [1; 0]) (grow (range 2 20) class2_picks).
Proof.
  assert (HF : Forall2 class2_pick (range 2 20) class2_picks).
  { unfold class2_picks. change (range 2 20) with
      [2; 3; 4; 5; 6; 7; 8; 9; 10; 11; 12; 13; 14; 15; 16; 17; 18; 19].
    repeat (constructor;
            [split; [reflexivity|];
             split; [repeat constructor; cbn; intuition discriminate|];
             repeat constructor; lia|]).
    constructor. }
  destruct (gen_class2_takes_every_choice class2_picks [] HF)
    as (d & H1 & H2 & _).
  exists d. exact (conj H1 H2).
Defined.

(** ** The generated graphs are simple *)

Lemma in_both_ways a b l :
  In (a, b) (both_ways l) <-> In (a, b) l \/ In (b, a) l.
Proof.
  unfold both_ways. rewrite in_flat_map. split.
  - intros ([u v] & Hin & H). cbn in H.
    destruct H as [H|[H|[]]]; inversion H; subst; auto.
  - intros [H|H]; eexists; (split; [exact H|]); cbn; auto.
Qed.

Lemma NoDup_both_ways l :
  Forall (fun pr => fst pr < snd pr) l -> NoDup l -> NoDup (both_ways l).
Proof.
  intros Hlt Hnd. induction Hnd as [|[a b] l Hnotin Hnd IH];
    [constructor|].
  inversion Hlt as [|? ? Hab Hlt']; subst. cbn [fst snd] in Hab.
  assert (Hrev : ~ In (b, a) l).
  { intros H. apply (proj1 (Forall_forall _ _) Hlt') in H. cbn in H. lia. }
  change (both_ways ((a, b) :: l))
    with ((a, b) :: (b, a) :: both_ways l).
  constructor; [|constructor; [|now apply IH]].
  - intros [H|H]; [inversion H; lia|].
    apply in_both_ways in H. tauto.
  - intros H. apply in_both_ways in H. tauto.
Qed.

Lemma grow_pairs_In steps picks a b :
  Forall2 (fun i ts => Forall (fun p => 0 <= p < i) ts) steps picks ->
  In (a, b) (grow_pairs steps picks) -> In b steps /\ 0 <= a < b.
Proof.
  intros HF. induction HF as [|i ts steps picks Hts _ IH]; [intros []|].
  cbn [grow_pairs]. rewrite in_app_iff, in_map_iff.
  intros [(p & H & Hp)|H].
  - inversion H; subst. split; [now left|].
    now apply (proj1 (Forall_forall _ _) Hts).
  - destruct (IH H). split; [now right|assumption].
Qed.

Lemma NoDup_append {A} (l1 l2 : list A) :
  NoDup l1 -> NoDup l2 -> (forall a, In a l1 -> ~ In a l2) ->
  NoDup (l1 ++ l2).
Proof.
  intros H1 H2 H12. induction H1 as [|a l1 Ha _ IH]; [exact H2|].
  cbn [app]. constructor.
  - rewrite in_app_iff. intros [H|H]; [contradiction|].
    apply (H12 a); [now left|exact H].
  - apply IH. intros b Hb. apply H12. now right.
Qed.

Lemma NoDup_grow_pairs steps picks :
  NoDup steps ->
  Forall2 (fun i ts => NoDup ts /\ Forall (fun p => 0 <= p < i) ts)
          steps picks ->
  NoDup (grow_pairs steps picks).
Proof.
  intros Hnd HF. induction HF as [|i ts steps picks [Hts Hr] HF IH];
    [constructor|].
  inversion Hnd as [|? ? Hi Hnd']; subst. cbn [grow_pairs].
  apply NoDup_append.
  - clear -Hts. induction Hts as [|p ts Hp _ IH]; cbn; constructor; auto.
    rewrite in_map_iff. intros (q & H & Hq). inversion H; subst.
    contradiction.
  - now apply IH.
  - intros [a b] Ha Hb. apply in_map_iff in Ha as (p & H & _).
    inversion H; subst. apply Hi.
    refine (proj1 (grow_pairs_In steps picks a b _ Hb)).
    eapply Forall2_impl; [|exact HF]. cbn. tauto.
Qed.

Lemma NoDup_range lo hi : NoDup (range lo hi).
Proof.
  remember (Z.to_nat (hi - lo)) as n eqn:Hn. revert lo Hn.
  induction n as [|n IH]; intros lo Hn.
  - rewrite range_nil by lia. constructor.
  - rewrite range_cons by lia. constructor; [|apply IH; lia].
    rewrite range_In. lia.
Qed.

(** A graph made of the seed pair and of targets below each new node,
    no target twice for the same node, has no entry twice and no entry
    from a node to itself. *)
Lemma grown_simple picks :
  Forall2 (fun i ts => NoDup ts /\ Forall (fun p => 0 <= p < i) ts)
          (range 2 20) picks ->
  NoDup (columns (cat_dim1 ([0; 1], [1; 0]) (grow (range 2 20) picks)))
  /\ forall a b,
       edge (cat_dim1 ([0; 1], [1; 0]) (grow (range 2 20) picks)) a b ->
       a <> b.
Proof.
  intros HF. unfold edge. rewrite seed_grow_columns.
  assert (HF' : Forall2 (fun i ts => Forall (fun p => 0 <= p < i) ts)
                        (range 2 20) picks).
  { eapply Forall2_impl; [|exact HF]. cbn. tauto. }
  assert (Hlt : Forall (fun pr => fst pr < snd pr)
                       ((0, 1) :: grow_pairs (range 2 20) picks)).
  { constructor; [cbn; lia|]. apply Forall_forall. intros [a b] H.
    apply (grow_pairs_In _ _ _ _ HF') in H. cbn. lia. }
  split.
  - apply NoDup_both_ways; [exact Hlt|]. constructor.
    + intros H. apply (grow_pairs_In _ _ _ _ HF') in H as [H _].
      apply range_In in H. lia.
    + apply NoDup_grow_pairs; [apply NoDup_range|exact HF].
  - intros a b H. apply in_both_ways in H.
    destruct H as [H|H];
      apply (proj1 (Forall_forall _ _) Hlt) in H; cbn in H; lia.
Qed.

Lemma generated_picks t d r :
  BA_LRP.gen_class1 t = Ret d r \/ BA_LRP.gen_class2 t = Ret d r ->
  exists picks,
    Forall2 (fun i ts => NoDup ts /\ Forall (fun p => 0 <= p < i) ts)
            (range 2 20) picks
    /\ edge_index d = cat_dim1 ([0; 1], [1; 0]) (grow (range 2 20) picks).
Proof.
  intros [H|H].
  - apply (grow_loop _ class1_pick class1_step_pick) in H
      as (picks & HF & He & _).
    exists picks. split; [|exact He].
    eapply Forall2_impl; [|exact HF]. intros i ts [Hl Hts].
    split; [|exact Hts].
    destruct ts as [|p [|q ts]]; try discriminate.
    constructor; [intros []|constructor].
  - apply (grow_loop _ class2_pick class2_step_pick) in H
      as (picks & HF & He & _).
    exists picks. split; [|exact He].
    eapply Forall2_impl; [|exact HF]. intros i ts (_ & Hnd & Hts).
    now split.
Qed.

(** X4: the graph of every run of either generator is simple: its edge
    index holds no directed entry twice (the second target of a node in
    [gen_class2] is drawn again until it differs from the first) and no
    entry from a node to itself (targets are drawn among the nodes that
    exist before the new one). *)
Theorem generated_graph_simple (t : tape) (d : Data) (r : tape) :
  BA_LRP.gen_class1 t = Ret d r \/ BA_LRP.gen_class2 t = Ret d r ->
  NoDup (columns (edge_index d))
  /\ forall a b, edge (edge_index d) a b -> a <> b.
Proof.
  intros H. apply generated_picks in H as (picks & HF & ->).
  now apply grown_simple.
Qed.

Lemma generated_graph_simple_witness :
  exists d, BA_LRP.gen_class2 class2_tape = Ret d []
            /\ NoDup (columns (edge_index d)).
Proof.
  assert (Hrun : exists d, BA_LRP.gen_class2 class2_tape = Ret d []).
  { eexists. vm_compute. reflexivity. }
  destruct Hrun as [d Hrun]. exists d. split; [exact Hrun|].
  exact (proj1 (generated_graph_simple _ _ _ (or_intror Hrun))).
Defined.

(** ** Degrees *)

Lemma count_eq_cons v row k :
  count_eq (v :: row) k
  = ((if Z.eq_dec v k then 1 else 0) + count_eq row k)%nat.
Proof. unfold count_eq. cbn. destruct (Z.eq_dec v k); reflexivity. Qed.

Lemma count_eq_app l1 l2 k :
  count_eq (l1 ++ l2) k = (count_eq l1 k + count_eq l2 k)%nat.
Proof. unfold count_eq. apply count_occ_app. Qed.

Lemma attach_balanced i ts k :
  count_eq (fst (attach i ts)) k = count_eq (snd (attach i ts)) k.
Proof.
  unfold attach. cbn [fst snd].
  induction ts as [|p ts IH]; [reflexivity|].
  cbn [flat_map app]. rewrite !count_eq_cons, IH. lia.
Qed.

Lemma grow_balanced steps picks k :
  count_eq (fst (grow steps picks)) k = count_eq (snd (grow steps picks)) k.
Proof.
  revert picks. induction steps as [|i steps IH]; intros [|ts picks];
    try reflexivity.
  cbn [grow cat_dim1 fst snd]. rewrite !count_eq_app, IH, attach_balanced.
  reflexivity.
Qed.

(** X5: in the graph of every run of either generator each node occurs
    as often in row 0 of the edge index as in row 1, so the degree the
    generators count in row 0 is also the number of entries that point
    at the node. *)
Theorem generated_graph_balanced (t : tape) (d : Data) (r : tape) :
  BA_LRP.gen_class1 t = Ret d r \/ BA_LRP.gen_class2 t = Ret d r ->
  forall node,
    count_eq (fst (edge_index d)) node = count_eq (snd (edge_index d)) node.
Proof.
  intros H node. apply generated_picks in H as (picks & _ & ->).
  cbn [cat_dim1 fst snd]. rewrite !count_eq_app, grow_balanced.
  rewrite !count_eq_cons. unfold count_eq. cbn [count_occ]. lia.
Qed.

Lemma generated_graph_balanced_witness :
  exists d, BA_LRP.gen_class2 class2_tape = Ret d []
            /\ count_eq (fst (edge_index d)) 0
               = count_eq (snd (edge_index d)) 0.
Proof.
  assert (Hrun : exists d, BA_LRP.gen_class2 class2_tape = Ret d []).
  { eexists. vm_compute. reflexivity. }
  destruct Hrun as [d Hrun]. exists d. split; [exact Hrun|].
  exact (generated_graph_balanced _ _ _ (or_intror Hrun) 0).
Defined.

Lemma list_sum_map_add {A} (f g : A -> nat) l :
  list_sum (map (fun a => f a + g a)%nat l)
  = (list_sum (map f l) + list_sum (map g l))%nat.
Proof.
  induction l as [|a l IH]; [reflexivity|].
  cbn [map]. change (list_sum (?h :: ?t)) with (h + list_sum t)%nat.
  change (list_sum (f a :: map f l)) with (f a + list_sum (map f l))%nat.
  change (list_sum (g a :: map g l)) with (g a + list_sum (map g l))%nat.
  lia.
Qed.

Lemma indicator_sum_out v l :
  ~ In v l -> list_sum (map (fun k => if Z.eq_dec v k then 1%nat else 0%nat) l) = 0%nat.
Proof.
  induction l as [|k l IH]; intros H; [reflexivity|].
  cbn [map]. change (list_sum (?h :: ?t)) with (h + list_sum t)%nat.
  destruct (Z.eq_dec v k) as [->|_]; [elim H; now left|].
  rewrite IH; [reflexivity|]. intros Hin. apply H. now right.
Qed.

Lemma indicator_sum_in v l :
  NoDup l -> In v l ->
  list_sum (map (fun k => if Z.eq_dec v k then 1%nat else 0%nat) l) = 1%nat.
Proof.
  induction 1 as [|k l Hk Hnd IH]; intros Hin; [destruct Hin|].
  cbn [map]. change (list_sum (?h :: ?t)) with (h + list_sum t)%nat.
  destruct (Z.eq_dec v k) as [->|Hne].
  - now rewrite indicator_sum_out.
  - destruct Hin as [<-|Hin]; [congruence|]. now rewrite IH.
Qed.

(** Counting every node of [l] in a row of nodes of [l] counts every
    entry of the row once. *)
Lemma count_sum row l :
  NoDup l -> Forall (fun v => In v l) row ->
  list_sum (map (count_eq row) l) = length row.
Proof.
  intros Hnd. induction 1 as [|v row Hv _ IH].
  - induction l as [|k l IHl]; [reflexivity|].
    inversion Hnd; subst. cbn [map].
    change (list_sum (?h :: ?t)) with (h + list_sum t)%nat. now rewrite IHl.
  - rewrite (map_ext _ _ (count_eq_cons v row)), list_sum_map_add, IH.
    rewrite indicator_sum_in by assumption. reflexivity.
Qed.

Lemma constant_sum {A} (l : list A) :
  list_sum (map (fun _ => 1%nat) l) = length l.
Proof.
  induction l as [|a l IH]; [reflexivity|]. cbn [map length].
  change (list_sum (?h :: ?t)) with (h + list_sum t)%nat. now rewrite IH.
Qed.

(** X6: at growth step [i] of a run of [gen_class1] the tensor [deg]
    sums to exactly 2 (i - 1), twice the number of pairs of the tree
    built so far, so the probability of node k is its degree over
    2 (i - 1). *)
Theorem class1_sum_deg_exact (i : Z) (t : tape) (d : Data) (r : tape) :
  2 <= i <= 20 ->
  for_each (range 2 i) BA_LRP.class1_step (BA_LRP.seed 0) t = Ret d r ->
  fsum (BA_LRP.class1_deg i d) = Some (inject_Z (2 * (i - 1))).
Proof.
  intros Hi Hrun. unfold BA_LRP.class1_deg. rewrite fsum_degrees.
  assert (Hatt : attached i (edge_index d)).
  { apply (class1_loop_attached 2 i (BA_LRP.seed 0) t d r);
      [lia|exact attached_seed|exact Hrun]. }
  rewrite count_sum.
  - apply (grow_loop _ class1_pick class1_step_pick) in Hrun
      as (picks & HF & He & _).
    destruct (grow_rows_length (fun _ => 1%nat) class1_pick
                (fun i ts H => proj1 H) _ _ HF) as (L1 & _).
    rewrite He. cbn [BA_LRP.seed edge_index cat_dim1 fst snd].
    rewrite length_app, L1, constant_sum, range_length.
    do 2 f_equal. cbn [length]. lia.
  - apply NoDup_range.
  - eapply Forall_impl; [|exact (att_src _ _ Hatt)].
    intros v Hv. apply range_In. exact Hv.
Qed.

Lemma class1_sum_deg_exact_witness :
  fsum (BA_LRP.class1_deg 3 (class1_record_prefix)) = Some (inject_Z 4).
Proof.
  apply (class1_sum_deg_exact 3 [0] _ []); [lia|reflexivity].
Defined.

(** ** Errors and labels of the readers *)

(** X7: the multi-graph reader fails exactly when [node_features] or
    [graph_labels] holds fewer entries than [dense_edges], and then with
    [IndexError]; entries beyond the number of adjacency matrices are
    never looked at, and no content of the arrays makes it fail. *)
Theorem read_ba2motif_data_errors
    (dense_edges node_features : list (list (list Q)))
    (graph_labels : list (list Z)) (e : exn) :
  read_ba2motif_data (Pickle3 dense_edges node_features graph_labels) = Err e
  <-> e = IndexError
      /\ ((length node_features < length dense_edges)%nat
          \/ (length graph_labels < length dense_edges)%nat).
Proof.
  split.
  - intros H.
    destruct (Nat.le_gt_cases (length dense_edges) (length node_features))
      as [H1|H1];
      [destruct (Nat.le_gt_cases (length dense_edges) (length graph_labels))
         as [H2|H2]|].
    + cbn [read_ba2motif_data] in H. rewrite read_graphs_ok in H;
        [discriminate|].
      intros k Hk. apply in_seq in Hk. lia.
    + rewrite read_ba2motif_data_index_error in H by lia.
      inversion H. auto.
    + rewrite read_ba2motif_data_index_error in H by lia.
      inversion H. auto.
  - intros [-> H]. now apply read_ba2motif_data_index_error.
Qed.

Lemma np_where_cols_bound a :
  Forall (fun c => 0 <= c < Z.of_nat (shape1 a)) (np_where_cols a).
Proof.
  unfold np_where_cols. apply Forall_forall. intros c Hc.
  apply in_flat_map in Hc as (i & _ & Hc).
  apply in_map_iff in Hc as (j & <- & Hj).
  apply filter_In in Hj as [Hj _]. apply in_seq in Hj. lia.
Qed.

(** X8: on arrays of the documented shapes (V mask entries, label arrays
    of V rows and C columns) the single-graph reader never fails: it
    returns a record that carries the three masks as given and whose
    label tensor holds only class indices in [0, C). *)
Theorem read_syn_data_well_shaped
    (adj features : list (list Q)) (y_train y_val y_test : ndarray2)
    (mask_train mask_val mask_test : list bool)
    (edge_label_matrix : list (list Q)) (V C : nat) :
  length mask_train = V -> length mask_val = V -> length mask_test = V ->
  shape0 y_train = V -> shape0 y_val = V -> shape0 y_test = V ->
  shape1 y_train = C -> shape1 y_val = C -> shape1 y_test = C ->
  exists d node_labels,
    read_syn_data (Pickle9 adj features y_train y_val y_test
                           mask_train mask_val mask_test edge_label_matrix)
    = Ok d
    /\ y d = LongVec node_labels
    /\ Forall (fun c => 0 <= c < Z.of_nat C) node_labels
    /\ train_mask d = Some mask_train
    /\ val_mask d = Some mask_val
    /\ test_mask d = Some mask_test.
Proof.
  intros L1 L2 L3 R1 R2 R3 C1 C2 C3.
  destruct (masked_labels_ok y_train y_val y_test
              mask_train mask_val mask_test V C)
    as (Y & HY & HV & HC & Hat); auto.
  eexists. exists (np_where_cols Y). cbn [read_syn_data]. rewrite HY.
  cbn [rbind]. split; [reflexivity|].
  cbn [y train_mask val_mask test_mask].
  split; [reflexivity|]. split; [|auto].
  rewrite <- HC. apply np_where_cols_bound.
Qed.

Lemma read_syn_data_well_shaped_witness :
  exists d node_labels,
    read_syn_data two_node_pickle = Ok d
    /\ y d = LongVec node_labels
    /\ Forall (fun c => 0 <= c < 2) node_labels
    /\ train_mask d = Some [true; false].
Proof.
  destruct (read_syn_data_well_shaped
              [[0; 1]; [1; 0]]%Q [[1]; [1]]%Q
              (of_rows [[0; 1]; [0; 0]]) (of_rows [[0; 0]; [0; 0]])
              (of_rows [[0; 0]; [1; 0]])
              [true; false] [false; false] [false; true] [] 2%nat 2%nat
              eq_refl eq_refl eq_refl eq_refl eq_refl eq_refl
              eq_refl eq_refl eq_refl)
    as (d & node_labels & H1 & H2 & H3 & H4 & _).
  exists d, node_labels. repeat split; assumption.
Defined.




(** ** Building and processing, edge cases *)

(** X10: a raw file of the format the dataset name does not select (the
    three arrays of the multi-graph format under a single-graph name, or
    the nine of the single-graph format under the name BA_2Motifs in any
    letter case) makes [process] fail with [ValueError], whatever the
    hooks and the state of the object; nothing is saved. *)
Theorem process_wrong_format
    (self_len : SynGraphDataset.store -> result nat)
    (self_get : SynGraphDataset.store -> nat -> result Data)
    (name : string) (raw : pickle)
    (pre_filter : option (Data -> bool))
    (pre_transform : option (Data -> Data))
    (st : SynGraphDataset.store) :
  wrong_format name raw = true ->
  SynGraphDataset.process self_len self_get name raw
                          pre_filter pre_transform st
  = Err ValueError.
Proof.
  unfold wrong_format, SynGraphDataset.process.
  destruct (String.eqb (SynGraphDataset.lower name)
                       (SynGraphDataset.lower "BA_2Motifs"));
    destruct raw; cbn [negb]; try discriminate; intros _; reflexivity.
Qed.

Lemma process_wrong_format_witness :
  SynGraphDataset.process unset_len unset_get "ba_2MOTIFS" two_node_pickle
                          None None None
  = Err ValueError.
Proof.
  apply (process_wrong_format unset_len unset_get "ba_2MOTIFS"
           two_node_pickle None None None).
  reflexivity.
Defined.

(** X11: for the multi-graph format, as soon as a filter or a transform
    is given, the records just read from the raw file play no part in
    what [process] saves or leaves in the object: two raw files that
    both read without error give the same result, the hooks being run
    over the records the object already holds. *)
Theorem process_multi_hooks_ignore_records
    (self_len : SynGraphDataset.store -> result nat)
    (self_get : SynGraphDataset.store -> nat -> result Data)
    (name : string) (raw1 raw2 : pickle) (l1 l2 : list Data)
    (pre_filter : option (Data -> bool))
    (pre_transform : option (Data -> Data))
    (st : SynGraphDataset.store) :
  String.eqb (SynGraphDataset.lower name)
             (SynGraphDataset.lower "BA_2Motifs") = true ->
  read_ba2motif_data raw1 = Ok l1 ->
  read_ba2motif_data raw2 = Ok l2 ->
  pre_filter <> None \/ pre_transform <> None ->
  SynGraphDataset.process self_len self_get name raw1
                          pre_filter pre_transform st
  = SynGraphDataset.process self_len self_get name raw2
                            pre_filter pre_transform st.
Proof.
  intros Hname H1 H2 Hhook. unfold SynGraphDataset.process.
  rewrite Hname, H1, H2. cbn [rbind].
  destruct pre_filter as [f|], pre_transform as [g|]; cbn [rbind fst snd].
  - destruct (SynGraphDataset.stored_list self_len self_get st);
      reflexivity.
  - destruct (SynGraphDataset.stored_list self_len self_get st);
      reflexivity.
  - reflexivity.
  - destruct Hhook as [H|H]; now elim H.
Qed.

Lemma process_multi_hooks_ignore_records_witness :
  SynGraphDataset.process (fun _ => Ok 0%nat) unset_get "BA_2Motifs"
    (Pickle3 [[[0%Q]]] [[[1%Q]]] [[0; 1]]) None (Some (fun d => d)) None
  = SynGraphDataset.process (fun _ => Ok 0%nat) unset_get "BA_2Motifs"
      (Pickle3 [] [] []) None (Some (fun d => d)) None.
Proof.
  eapply (process_multi_hooks_ignore_records _ _ "BA_2Motifs");
    [reflexivity|reflexivity|reflexivity|].
  right. discriminate.
Defined.

Lemma process_as_list num_per_class t :
  BA_LRP.process false num_per_class t
  = bind (generated_list num_per_class)
         (fun l => ret (BA_LRP.Saved (collate l))) t.
Proof. reflexivity. Qed.

(** X13: a number of graphs per class that is zero or negative is not
    rejected: [process] draws nothing and saves the collation of no
    graph at all. *)
Theorem process_nonpositive (num_per_class : Z) (t : tape) :
  num_per_class <= 0 ->
  BA_LRP.process false num_per_class t = Ret (BA_LRP.Saved (collate [])) t.
Proof.
  intros H. unfold BA_LRP.process. now rewrite range_nil by lia.
Qed.

Lemma process_nonpositive_witness :
  BA_LRP.process false (-3) class2_tape
  = Ret (BA_LRP.Saved (collate [])) class2_tape.
Proof. apply (process_nonpositive (-3) class2_tape). lia. Defined.

Lemma runs_loop runs :
  forall lo acc rest,
    Forall admissible_run runs ->
    exists gs,
      for_each (range lo (lo + Z.of_nat (length runs)))
        (fun _ data_list =>
           d1 <- BA_LRP.gen_class1 ;;
           d2 <- BA_LRP.gen_class2 ;;
           ret (data_list ++ [d1] ++ [d2]))
        acc (runs_tape runs ++ rest)
      = Ret (acc ++ gs) rest
      /\ map edge_index gs = runs_edges runs.
Proof.
  induction runs as [|[ps ts] runs IH]; intros lo acc rest Hall.
  - exists []. cbn [length]. rewrite range_nil by lia.
    cbn. now rewrite app_nil_r.
  - inversion Hall as [|? ? [H1 H2] Hall']; subst. cbn [fst snd] in H1, H2.
    cbn [length]. rewrite range_cons by lia. cbn [for_each].
    unfold runs_tape. cbn [flat_map fst snd]. rewrite <- !app_assoc.
    unfold bind at 1. unfold bind at 1.
    rewrite (gen_class1_on_picks ps _ H1).
    destruct (class2_loop_takes _ 2 (BA_LRP.seed 1) ts
                (flat_map (fun run => fst run ++ concat (snd run)) runs
                 ++ rest) eq_refl ltac:(lia) H2)
      as (d2 & Hrun & He & _).
    unfold bind at 1. unfold BA_LRP.gen_class2 at 1. rewrite Hrun.
    unfold ret at 1.
    destruct (IH (lo + 1) (acc ++ [class1_record ps] ++ [d2]) rest Hall')
      as (gs & Hloop & Hedges).
    replace (lo + Z.of_nat (S (length runs)))
      with (lo + 1 + Z.of_nat (length runs)) by lia.
    unfold runs_tape in Hloop. rewrite Hloop.
    exists ([class1_record ps] ++ [d2] ++ gs).
    split; [now rewrite <- !app_assoc|].
    cbn [app map runs_edges flat_map fst snd]. rewrite He.
    unfold runs_edges in Hedges. now rewrite Hedges.
Qed.

(** X14: [process] threads the random source through the generators in
    order: for every list of admissible draws (18 for a class-1 graph,
    then the targets of a class-2 graph, and so on) the run over their
    concatenation returns, leaves the rest of the tape untouched and
    saves the collation of twice as many graphs as there are pairs of
    runs, each graph being the one its own draws describe. *)
Theorem process_threads_tape
    (runs : list (list Z * list (list Z))) (rest : tape) :
  Forall admissible_run runs ->
  exists data_list,
    BA_LRP.process false (Z.of_nat (length runs)) (runs_tape runs ++ rest)
    = Ret (BA_LRP.Saved (collate data_list)) rest
    /\ map edge_index data_list = runs_edges runs
    /\ length data_list = (2 * length runs)%nat.
Proof.
  intros Hall.
  destruct (runs_loop runs 0 [] rest Hall) as (gs & Hloop & Hedges).
  exists gs. rewrite process_as_list. unfold bind at 1.
  unfold generated_list. cbn [Z.add] in Hloop. rewrite Hloop. cbn [app].
  split; [reflexivity|]. split; [exact Hedges|].
  apply (f_equal (@length _)) in Hedges. rewrite length_map in Hedges.
  rewrite Hedges. unfold runs_edges. clear.
  induction runs as [|run runs IH]; [reflexivity|].
  cbn [flat_map length app]. rewrite IH. lia.
Qed.

Lemma process_threads_tape_witness :
  exists data_list,
    BA_LRP.process false 1
      (runs_tape [(repeat 0 18, class2_picks)] ++ [])
    = Ret (BA_LRP.Saved (collate data_list)) []
    /\ length data_list = 2%nat.
Proof.
  assert (Hall : Forall admissible_run [(repeat 0 18, class2_picks)]).
  { constructor; [|constructor]. split; cbn [fst snd].
    - change (range 2 20) with
        [2; 3; 4; 5; 6; 7; 8; 9; 10; 11; 12; 13; 14; 15; 16; 17; 18; 19].
      cbn [repeat]. repeat (constructor; [lia|]). constructor.
    - unfold class2_picks. change (range 2 20) with
        [2; 3; 4; 5; 6; 7; 8; 9; 10; 11; 12; 13; 14; 15; 16; 17; 18; 19].
      repeat (constructor;
              [split; [reflexivity|];
               split; [repeat constructor; cbn; intuition discriminate|];
               repeat constructor; lia|]).
      constructor. }
  destruct (process_threads_tape [(repeat 0 18, class2_picks)] [] Hall)
    as (data_list & H1 & _ & H2).
  exists data_list. exact (conj H1 H2).
Defined.

(** ** Drawing the second target again *)

Lemma sample_until_new_skips w node_pick k t :
  in_support w node_pick = true ->
  sample_until_new w node_pick (repeat node_pick k ++ t)
  = sample_until_new w node_pick t.
Proof.
  intros Hs. induction k as [|k IH]; [reflexivity|].
  cbn [repeat app sample_until_new]. now rewrite Hs, Z.eqb_refl.
Qed.

Lemma class2_attach_first w i d a t :
  Forall (fun q => (0 < q)%Q) w -> 0 <= a < Z.of_nat (length w) ->
  BA_LRP.class2_attach w i (-1, d) (a :: t)
  = Ret (a, set_edge_index d
              (cat_dim1 (edge_index d) ([a; i], [i; a]))) t.
Proof.
  intros Hall Ha. unfold BA_LRP.class2_attach, bind. cbn [fst snd].
  rewrite sample_until_new_first; [reflexivity|exact Hall|exact Ha|lia].
Qed.

Lemma class2_attach_skips w i a d k t :
  in_support w a = true ->
  BA_LRP.class2_attach w i (a, d) (repeat a k ++ t)
  = BA_LRP.class2_attach w i (a, d) t.
Proof.
  intros Hs. unfold BA_LRP.class2_attach, bind. cbn [fst snd].
  now rewrite sample_until_new_skips.
Qed.

(** X15: at a step of [gen_class2] that attaches two targets, draws that
    repeat the first target are thrown away: however many times the
    first target is drawn again, the step goes on with the draw after
    them as if they had not been made. *)
Theorem class2_step_discards_repeats
    (i : Z) (d : Data) (a : Z) (k : nat) (t : tape) :
  0 < i -> i mod 5 = 4 -> 0 <= a < i ->
  BA_LRP.class2_step i d (a :: repeat a k ++ t)
  = BA_LRP.class2_step i d (a :: t).
Proof.
  intros Hi Hmod Ha. unfold BA_LRP.class2_step.
  set (d1 := set_x d (x d ++ [[1%Q]])).
  destruct (class2_probs_positive i d1 Hi) as [Hpos Hne].
  destruct (Categorical_positive _ (a :: repeat a k ++ t) Hpos Hne)
    as (w & Hw & Hwlen & Hall).
  destruct (Categorical_positive _ (a :: t) Hpos Hne) as (w' & Hw' & _).
  assert (w' = w).
  { unfold Categorical in Hw, Hw'.
    destruct (finite_values (BA_LRP.class2_probs i d1)) as [v|];
      [|discriminate].
    destruct (forallb Qnonneg v && existsb Qpositive v); [|discriminate].
    inversion Hw; inversion Hw'; congruence. }
  subst w'. rewrite class2_probs_length in Hwlen.
  unfold bind at 1 3. rewrite Hw, Hw'.
  rewrite (proj2 (Z.eqb_eq (i mod 5) 4) Hmod). cbn [negb].
  change (range 0 2) with [0; 1]. cbn [for_each].
  assert (Hs : in_support w a = true).
  { apply in_support_positive; [exact Hall|lia]. }
  unfold bind. rewrite !class2_attach_first by (try exact Hall; lia).
  now rewrite class2_attach_skips.
Qed.

Lemma class2_step_discards_repeats_witness :
  BA_LRP.class2_step 4 class1_record_prefix (0 :: repeat 0 3 ++ [1])
  = BA_LRP.class2_step 4 class1_record_prefix (0 :: [1]).
Proof.
  apply (class2_step_discards_repeats 4 class1_record_prefix 0 3 [1]);
    [lia|reflexivity|lia].
Defined.

(** ** The BA-LRP dataset, for every number of graphs *)

Lemma plain_run_admissible : admissible_run plain_run.
Proof.
  split; cbn [plain_run fst snd].
  - change (range 2 20) with
      [2; 3; 4; 5; 6; 7; 8; 9; 10; 11; 12; 13; 14; 15; 16; 17; 18; 19].
    cbn [repeat]. repeat (constructor; [lia|]). constructor.
  - unfold class2_picks. change (range 2 20) with
      [2; 3; 4; 5; 6; 7; 8; 9; 10; 11; 12; 13; 14; 15; 16; 17; 18; 19].
    repeat (constructor;
            [split; [reflexivity|];
             split; [repeat constructor; cbn; intuition discriminate|];
             repeat constructor; lia|]).
    constructor.
Qed.

Lemma plain_runs_admissible n : Forall admissible_run (repeat plain_run n).
Proof.
  induction n as [|n IH]; cbn [repeat]; constructor;
    [apply plain_run_admissible|exact IH].
Qed.

(** Over the draws of [num_per_class] admissible pairs of runs [process]
    returns and saves the collation of their graphs, class 1 and class 2
    in turn. *)
Lemma process_on_runs num_per_class runs rest :
  0 <= num_per_class -> length runs = Z.to_nat num_per_class ->
  Forall admissible_run runs ->
  exists data_list,
    BA_LRP.process false num_per_class (runs_tape runs ++ rest)
    = Ret (BA_LRP.Saved (collate data_list)) rest
    /\ length data_list = (2 * Z.to_nat num_per_class)%nat
    /\ alternating data_list
    /\ map edge_index data_list = runs_edges runs.
Proof.
  intros Hn Hlen Hall.
  destruct (runs_loop runs 0 [] rest Hall) as (gs & Hloop & Hedges).
  cbn [Z.add] in Hloop.
  replace (Z.of_nat (length runs)) with num_per_class in Hloop by lia.
  exists gs. rewrite process_as_list. unfold bind at 1.
  unfold generated_list. rewrite Hloop. split; [reflexivity|].
  apply process_loop in Hloop as (gs' & E & Hgs & Halt).
  cbn [app] in E. subst gs'. rewrite range_length, Z.sub_0_r in Hgs.
  auto.
Qed.

(** C6: for every [num_per_class] >= 0 and no raw file, [process]
    generates and saves: it returns on the draws of any [num_per_class]
    admissible pairs of runs (so runs exist), it never ends by copying,
    and every run that returns has saved the collation of exactly twice
    [num_per_class] graphs, of class 1 and class 2 in turn; collation
    keeps that order in its labels and slices, slice k holding graph k;
    with [num_per_class] 0 the run returns and saves the empty dataset. *)
Theorem process_alternates (num_per_class : Z) :
  0 <= num_per_class ->
  (exists t data_list,
     BA_LRP.process false num_per_class t
     = Ret (BA_LRP.Saved (collate data_list)) []
     /\ length data_list = (2 * Z.to_nat num_per_class)%nat
     /\ alternating data_list)
  /\ (forall runs rest,
        length runs = Z.to_nat num_per_class ->
        Forall admissible_run runs ->
        exists data_list,
          BA_LRP.process false num_per_class (runs_tape runs ++ rest)
          = Ret (BA_LRP.Saved (collate data_list)) rest
          /\ length data_list = (2 * Z.to_nat num_per_class)%nat
          /\ alternating data_list
          /\ map edge_index data_list = runs_edges runs)
  /\ (forall t r, BA_LRP.process false num_per_class t
                  <> Ret BA_LRP.CopiedRaw r)
  /\ (forall t c r,
        BA_LRP.process false num_per_class t = Ret (BA_LRP.Saved c) r ->
        exists data_list,
          c = collate data_list
          /\ length data_list = (2 * Z.to_nat num_per_class)%nat
          /\ alternating data_list
          /\ map y data_list
             = concat (repeat [FloatMat [[0%Q]]; FloatMat [[1%Q]]]
                              (Z.to_nat num_per_class))
          /\ length (slices c) = (2 * Z.to_nat num_per_class)%nat
          /\ c_y c = concat (repeat [FloatLabel [0%Q]; FloatLabel [1%Q]]
                                    (Z.to_nat num_per_class))
          /\ forall k d, nth_error data_list k = Some d ->
               exists s, nth_error (slices c) k = Some s
                         /\ slice_of_record c (node_offset data_list k) d s)
  /\ forall t0, BA_LRP.process false 0 t0
                = Ret (BA_LRP.Saved empty_collated) t0.
Proof.
  intros Hn. split; [|split; [|split; [|split]]].
  - destruct (process_on_runs num_per_class
                (repeat plain_run (Z.to_nat num_per_class)) [] Hn)
      as (l & Hrun & Hlen & Halt & _);
      [apply repeat_length|apply plain_runs_admissible|].
    eexists. exists l. split; [exact Hrun|]. now split.
  - intros runs rest Hlen Hall. now apply process_on_runs.
  - intros t r H. rewrite process_as_list in H.
    apply bind_Ret in H as (l & t1 & _ & H). discriminate.
  - intros t c r H. exact (proj1 (process_saved_list _ _ _ _ H)).
  - reflexivity.
Qed.

Lemma process_alternates_witness :
  exists t data_list,
    BA_LRP.process false 3 t = Ret (BA_LRP.Saved (collate data_list)) []
    /\ length data_list = 6%nat
    /\ alternating data_list.
Proof.
  destruct (process_alternates 3 ltac:(lia)) as [(t & l & H) _].
  exists t, l. exact H.
Defined.

(** ** The transform of the multi-graph format *)

(** C8: the case the code misses.  For the name BA_2Motifs and a
    transform, [process] reads the raw file (here one graph) and then
    transforms not the records read but the records [self.get] returns
    from the state of the object, whatever they are; on an object whose
    [data] and [slices] are not assigned yet the run raises
    [AttributeError], where the claim has the collation of the
    transformed records read saved. *)
Theorem process_transform_misses_records :
  read_ba2motif_data one_graph_pickle = Ok [one_graph_record]
  /\ (forall self_len self_get g st,
        SynGraphDataset.process self_len self_get "BA_2Motifs"
                                one_graph_pickle None (Some g) st
        = (l <~ SynGraphDataset.stored_list self_len self_get st ;;
           Ok (collate (map g l), Some (collate (map g l)))))
  /\ SynGraphDataset.process unset_len unset_get "BA_2Motifs"
                             one_graph_pickle None (Some drop_features) None
     = Err AttributeError
  /\ collate (map drop_features [one_graph_record]) <> collate [].
Proof.
  split; [reflexivity|]. split; [|split].
  - intros self_len self_get g st. unfold SynGraphDataset.process.
    change (String.eqb (SynGraphDataset.lower "BA_2Motifs")
                       (SynGraphDataset.lower "BA_2Motifs")) with true.
    cbv iota.
    change (read_ba2motif_data one_graph_pickle)
      with (Ok [one_graph_record]).
    cbn [rbind fst snd].
    destruct (SynGraphDataset.stored_list self_len self_get st);
      reflexivity.
  - reflexivity.
  - intros H. apply (f_equal slices) in H. discriminate.
Qed.
